(** * A shallow embedding of go-tron/rate-limiter (rateLimiter.go)

    The limiter keeps two in-memory access lists (slices of strings), talks
    to an external counter store (Redis) and, optionally, to a publisher
    callback.  The embedding threads an explicit world -- the limiter's own
    fields, the store's state and the trace of published messages -- through
    every method, in the order the Go code performs its effects. *)

From Stdlib Require Import ZArith String Ascii List Bool Lia.
From stdpp Require Import base gmap strings list.

Local Open Scope Z_scope.

(** ** Errors *)

(** [baseError.Error]: a code and a message. *)
Record baseError := mkBaseError { errCode : string; errMsg : string }.

(** A non-nil Go [error] interface value.  [ErrBase p] holds a
    [*baseError.Error] (a pointer, so possibly the nil pointer [None]);
    [ErrForeign] is any other error, as produced by the store client.
    The nil interface value is [None : option error]. *)
Inductive error : Type :=
| ErrBase (p : option baseError)
| ErrForeign (text : string).

Definition ErrorBlock := mkBaseError "4300" "forbidden".
Definition ErrorWarning := mkBaseError "4301" "too many requests".
Definition ErrorWhiteListExists := mkBaseError "4303" "whiteList exists".
Definition ErrorBlackListExists := mkBaseError "4304" "blackList exists".

(** ** Configuration and limiter *)

(** [Config], without its [Store] pointer: the store the pointer refers to
    is the [store] component of the world below.  Durations are
    [time.Duration] values (nanoseconds), thresholds are Go [int]s; the code
    only compares them. *)
Record Config := mkConfig {
  Name : string;
  Duration : Z;
  WarningTimes : Z;
  BlockTimes : Z;
  BlockDuration : Z;
  WarningError : option baseError;
  BlockError : option baseError;
  WhiteList : list string;
  BlackList : list string;
  Pub : option (string -> string -> option error)
}.

Record RateLimiter := mkRateLimiter {
  config : Config;
  whiteList : list string;
  blackList : list string;
  whiteListKey : string;
  blackListKey : string
}.

(** ** The store client

    The six operations of [*redis.Redis] the limiter calls.  Each takes the
    store's state and gives back a result-or-error and the next state. *)
Class Store (St : Type) := {
  FrequencyLimit : string -> Z -> Z -> St -> (error + Z) * St;
  Expire : string -> Z -> St -> (error + bool) * St;
  Del : string -> St -> (error + Z) * St;
  SAdd : string -> string -> St -> (error + Z) * St;
  SRem : string -> string -> St -> (error + Z) * St;
  SMembers : string -> St -> (error + list string) * St
}.

(** ** Helpers from go-funk and strings *)

(** [funk.ContainsString] (and [funk.Contains] on a [[]string]). *)
Fixpoint ContainsString (s : list string) (v : string) : bool :=
  match s with
  | [] => false
  | x :: rest => if String.eqb x v then true else ContainsString rest v
  end.

Definition Contains := ContainsString.

(** [funk.IndexOfString]: the first index holding [v], or -1. *)
Fixpoint IndexOfString (s : list string) (v : string) : Z :=
  match s with
  | [] => -1
  | x :: rest =>
      if String.eqb x v then 0
      else let i := IndexOfString rest v in
           if i =? -1 then -1 else i + 1
  end.

(** [append(l[:idx], l[idx+1:]...)] for an index within the slice. *)
Definition removeAt (l : list string) (idx : Z) : list string :=
  take (Z.to_nat idx) l ++ drop (Z.to_nat (idx + 1)) l.

(** [strings.Split(s, sep)] for a one-byte separator: every occurrence of
    the separator cuts, and the result has one more element than [s] has
    separators (so it is never empty). *)
Fixpoint Split (s : string) (sep : ascii) : list string :=
  match s with
  | EmptyString => [EmptyString]
  | String c rest =>
      if Ascii.eqb c sep then EmptyString :: Split rest sep
      else match Split rest sep with
           | seg :: segs => String c seg :: segs
           | [] => [String c EmptyString]
           end
  end.

Definition dash : ascii := "-"%char.

(** ** The limiter's methods *)

Section Limiter.

Context {St : Type} `{Store St}.

Record World := mkWorld {
  limiter : RateLimiter;
  store : St;
  published : list (string * string)
}.

(** A state monad over the world. *)
Definition M (A : Type) : Type := World -> A * World.

Definition ret {A} (a : A) : M A := fun w => (a, w).

Definition bind {A B} (m : M A) (k : A -> M B) : M B :=
  fun w => let (a, w') := m w in k a w'.

Notation "'let*' x ':=' m 'in' k" := (bind m (fun x => k))
  (at level 10, x pattern, m at level 100, k at level 200).

Definition self : M RateLimiter := fun w => (limiter w, w).

Definition setWhiteList (l : list string) : M unit := fun w =>
  (tt, mkWorld (mkRateLimiter (config (limiter w)) l (blackList (limiter w))
                  (whiteListKey (limiter w)) (blackListKey (limiter w)))
         (store w) (published w)).

Definition setBlackList (l : list string) : M unit := fun w =>
  (tt, mkWorld (mkRateLimiter (config (limiter w)) (whiteList (limiter w)) l
                  (whiteListKey (limiter w)) (blackListKey (limiter w)))
         (store w) (published w)).

(** A call of a store operation. *)
Definition call {A} (op : St -> A * St) : M A := fun w =>
  let (r, s) := op (store w) in (r, mkWorld (limiter w) s (published w)).

(** [if pub && rl.Pub != nil { rl.Pub(rl.Name, msg) }]: the callback's
    result is dropped; the call is recorded in the trace. *)
Definition publish (pub : bool) (msg : string) : M unit := fun w =>
  match pub, Pub (config (limiter w)) with
  | true, Some f =>
      let _ := f (Name (config (limiter w))) msg in
      (tt, mkWorld (limiter w) (store w)
             (published w ++ [(Name (config (limiter w)), msg)]))
  | _, _ => (tt, w)
  end.

Definition counterKey (rl : RateLimiter) (id : string) : string :=
  Name (config rl) +:+ ":" +:+ id.

Definition CheckReset (id : string) : M (option error) :=
  let* rl := self in
  let* r := call (Del (counterKey rl id)) in
  match r with
  | inl err => ret (Some err)
  | inr _ => ret None
  end.

Definition RemoveWhiteList (id : string) (pub : bool) : M (option error) :=
  let* rl := self in
  let* r := call (SRem (whiteListKey rl) id) in
  match r with
  | inl err => ret (Some err)
  | inr _ =>
      let idx := IndexOfString (whiteList rl) id in
      let* _ := (if negb (idx =? -1)
                 then setWhiteList (removeAt (whiteList rl) idx)
                 else ret tt) in
      let* _ := publish pub ("removeWhiteList-" +:+ id) in
      ret None
  end.

Definition RemoveBlackList (id : string) (pub : bool) : M (option error) :=
  let* rl := self in
  let* r := call (SRem (blackListKey rl) id) in
  match r with
  | inl err => ret (Some err)
  | inr _ =>
      let idx := IndexOfString (blackList rl) id in
      let* _ := (if negb (idx =? -1)
                 then setBlackList (removeAt (blackList rl) idx)
                 else ret tt) in
      let* _ := publish pub ("removeBlackList-" +:+ id) in
      CheckReset id
  end.

Definition AddWhiteList (id : string) (pub : bool) : M (option error) :=
  let* rl := self in
  let* r := call (SAdd (whiteListKey rl) id) in
  match r with
  | inl err => ret (Some err)
  | inr _ =>
      let idx := IndexOfString (whiteList rl) id in
      if negb (idx =? -1) then ret (Some (ErrBase (Some ErrorWhiteListExists)))
      else
        let* _ := setWhiteList (whiteList rl ++ [id]) in
        let* _ := publish pub ("addWhiteList-" +:+ id) in
        ret None
  end.

Definition AddBlackList (id : string) (pub : bool) : M (option error) :=
  let* rl := self in
  let* r := call (SAdd (blackListKey rl) id) in
  match r with
  | inl err => ret (Some err)
  | inr _ =>
      let idx := IndexOfString (blackList rl) id in
      if negb (idx =? -1) then ret (Some (ErrBase (Some ErrorBlackListExists)))
      else
        let* _ := setBlackList (blackList rl ++ [id]) in
        let* _ := publish pub ("addBlackList-" +:+ id) in
        ret None
  end.

(** The error values [Check] reports. *)
Definition Blocked (rl : RateLimiter) : option error :=
  Some (ErrBase (BlockError (config rl))).
Definition Warned (rl : RateLimiter) : option error :=
  Some (ErrBase (WarningError (config rl))).

Definition Check (id : string) : M (Z * option error) :=
  let* rl := self in
  if Contains (whiteList rl) id then ret (0, None)
  else if Contains (blackList rl) id then ret (0, Blocked rl)
  else
    let* r := call (FrequencyLimit (counterKey rl id) 0 (Duration (config rl))) in
    match r with
    | inl err => ret (0, Some err)
    | inr times =>
        if (0 <? BlockTimes (config rl)) && (BlockTimes (config rl) <=? times) then
          let* _ := (if BlockDuration (config rl) =? 0
                     then let* _ := AddBlackList id true in ret tt
                     else let* _ := call (Expire (counterKey rl id)
                                            (BlockDuration (config rl))) in ret tt) in
          ret (times, Blocked rl)
        else if (0 <? WarningTimes (config rl)) && (WarningTimes (config rl) <=? times) then
          ret (times, Warned rl)
        else ret (times, None)
    end.

Definition Sub (message : string) : M (option error) :=
  match Split message dash with
  | [action; id] =>
      if String.eqb action "removeWhiteList" then RemoveWhiteList id false
      else if String.eqb action "removeBlackList" then RemoveBlackList id false
      else if String.eqb action "addWhiteList" then AddWhiteList id false
      else if String.eqb action "addBlackList" then AddBlackList id false
      else ret None
  | _ => ret None
  end.

(** [GetWhiteList] / [GetBlackList]: [id] is [nil] or a string. *)
Definition GetWhiteList (id : option string) : M (list string * option error) :=
  let* rl := self in
  match id with
  | Some v => if ContainsString (whiteList rl) v then ret ([v], None) else ret ([], None)
  | None => ret (whiteList rl, None)
  end.

Definition GetBlackList (id : option string) : M (list string * option error) :=
  let* rl := self in
  match id with
  | Some v => if ContainsString (blackList rl) v then ret ([v], None) else ret ([], None)
  | None => ret (blackList rl, None)
  end.

(** ** Construction *)

Inductive panic : Type :=
| PanicNilConfig
| PanicNoName
| PanicNoDuration
| PanicNegativeBlockDuration.

(** [for _, val := range list { l = append(l, val) }] *)
Definition copyList (configured : list string) : list string :=
  foldl (fun acc val => acc ++ [val]) [] configured.

(** The loop over the members read from the store: a member is appended
    unless the list built so far already holds it. *)
Definition seed (local members : list string) : list string :=
  foldl (fun acc val => if negb (ContainsString acc val) then acc ++ [val] else acc)
        local members.

Definition withDefaults (c : Config) : Config :=
  mkConfig (Name c) (Duration c) (WarningTimes c) (BlockTimes c) (BlockDuration c)
    (match WarningError c with None => Some ErrorWarning | e => e end)
    (match BlockError c with None => Some ErrorBlock | e => e end)
    (WhiteList c) (BlackList c) (Pub c).

(** [New]: the argument is the [*Config] (possibly nil) and the state of the
    store its [Store] field points to. *)
Definition New (c : option Config) (s : St) : panic + World :=
  match c with
  | None => inl PanicNilConfig
  | Some c =>
      if String.eqb (Name c) "" then inl PanicNoName
      else if Duration c =? 0 then inl PanicNoDuration
      else if BlockDuration c <? 0 then inl PanicNegativeBlockDuration
      else
        let c := withDefaults c in
        let wkey := Name c +:+ "-white" in
        let bkey := Name c +:+ "-black" in
        let wl := copyList (WhiteList c) in
        let bl := copyList (BlackList c) in
        let (rw, s1) := SMembers wkey s in
        let wl := match rw with inr members => seed wl members | inl _ => wl end in
        let (rb, s2) := SMembers bkey s1 in
        let bl := match rb with inr members => seed bl members | inl _ => bl end in
        inr (mkWorld (mkRateLimiter c wl bl wkey bkey) s2 [])
  end.

(** [n] successive calls of [Check] for one identity, with their results. *)
Fixpoint checks (id : string) (n : nat) : M (list (Z * option error)) :=
  match n with
  | O => ret []
  | S k =>
      let* r := Check id in
      let* rs := checks id k in
      ret (r :: rs)
  end.

End Limiter.

Arguments World St : clear implicits.
Arguments mkWorld {St} _ _ _.

(** [NewWithConfig]: [appName] stands for the string
    [conf.GetString("application.name")] returns.  The result [None] is the
    nil-pointer dereference of [c.Name] on a nil [c]; otherwise the name is
    prefixed in place and [New] runs on the same configuration. *)
Definition NewWithConfig {St : Type} `{Store St}
    (appName : string) (c : option Config) (s : St) : option (panic + World St) :=
  match c with
  | None => None
  | Some c =>
      Some (New (Some (mkConfig (appName +:+ "-" +:+ Name c) (Duration c)
                         (WarningTimes c) (BlockTimes c) (BlockDuration c)
                         (WarningError c) (BlockError c) (WhiteList c) (BlackList c)
                         (Pub c))) s)
  end.

(** The outcomes of [New] when the [Store] pointer of the configuration may
    be nil: one of its four panics, the nil-pointer dereference of
    [rl.Store] at the first [SMembers] call, or the limiter. *)
Inductive construction (St : Type) : Type :=
| Panics (p : panic)
| NilStore
| Returns (w : World St).

Arguments Panics {St} _.
Arguments NilStore {St}.
Arguments Returns {St} _.

(** [New] on a configuration whose [Store] field is [s] ([None]: the nil
    pointer).  The four checks come first and do not look at the store; the
    store is first used by the [SMembers] call that follows them. *)
Definition NewOn {St : Type} `{Store St} (c : option Config) (s : option St)
  : construction St :=
  match c with
  | None => Panics PanicNilConfig
  | Some cfg =>
      if String.eqb (Name cfg) "" then Panics PanicNoName
      else if Duration cfg =? 0 then Panics PanicNoDuration
      else if BlockDuration cfg <? 0 then Panics PanicNegativeBlockDuration
      else match s with
           | None => NilStore
           | Some st =>
               match New (Some cfg) st with
               | inl p => Panics p
               | inr w => Returns w
               end
           end
  end.

(** ** A reference store *)

Inductive StoreCall : Type :=
| CallFrequencyLimit (key : string) (limit duration : Z)
| CallExpire (key : string) (duration : Z)
| CallDel (key : string)
| CallSAdd (key member : string)
| CallSRem (key member : string)
| CallSMembers (key : string).

(** Modelled from the spec: the Counter Store Contract (the Redis client
    [*redis.Redis] is an external collaborator, its code is not part of this
    repository).  Counters hold a count and a time-to-live, sets hold their
    members.  No time passes between the modelled calls: every call happens
    within the lifetime of every key.  [faults] schedules the outcome of the
    forthcoming operations (absent or [None]: the operation succeeds,
    [Some e]: it fails with [e] and changes nothing); [calls] is the trace of
    the operations performed, with their failures. *)
Record MemStore := mkMemStore {
  counters : gmap string (Z * Z);
  sets : gmap string (list string);
  faults : list (option string);
  calls : list (StoreCall * option string)
}.

Definition attempt {A} (c : StoreCall)
    (run : gmap string (Z * Z) -> gmap string (list string) ->
           A * (gmap string (Z * Z) * gmap string (list string)))
    (s : MemStore) : (error + A) * MemStore :=
  match faults s with
  | Some e :: rest =>
      (inl (ErrForeign e),
       mkMemStore (counters s) (sets s) rest (calls s ++ [(c, Some e)]))
  | _ =>
      let '(a, (cs, ss)) := run (counters s) (sets s) in
      (inr a, mkMemStore cs ss (tail (faults s)) (calls s ++ [(c, None)]))
  end.

(** [IncrementWindow(key, threshold, windowDuration) -> count]: creates the
    key with the window as time-to-live on first use, increments and returns
    the current count afterwards. *)
Definition memFrequencyLimit (key : string) (limit duration : Z) :=
  attempt (CallFrequencyLimit key limit duration) (fun cs ss =>
    match cs !! key with
    | Some (n, ttl) => (n + 1, (<[key := (n + 1, ttl)]> cs, ss))
    | None => (1, (<[key := (1, duration)]> cs, ss))
    end).

(** [SetExpiry(key, duration)] *)
Definition memExpire (key : string) (duration : Z) :=
  attempt (CallExpire key duration) (fun cs ss =>
    match cs !! key with
    | Some (n, _) => (true, (<[key := (n, duration)]> cs, ss))
    | None => (false, (cs, ss))
    end).

(** [Delete(key)] *)
Definition memDel (key : string) :=
  attempt (CallDel key) (fun cs ss =>
    (match cs !! key, ss !! key with None, None => 0 | _, _ => 1 end,
     (delete key cs, delete key ss))).

(** [SetAdd(key, member)] *)
Definition memSAdd (key member : string) :=
  attempt (CallSAdd key member) (fun cs ss =>
    let l := default [] (ss !! key) in
    if ContainsString l member then (0, (cs, ss))
    else (1, (cs, <[key := l ++ [member]]> ss))).

(** [SetRemove(key, member)] *)
Definition memSRem (key member : string) :=
  attempt (CallSRem key member) (fun cs ss =>
    let l := default [] (ss !! key) in
    if ContainsString l member
    then (1, (cs, <[key := List.filter (fun x => negb (String.eqb x member)) l]> ss))
    else (0, (cs, ss))).

(** [SetMembers(key) -> list of member] *)
Definition memSMembers (key : string) :=
  attempt (CallSMembers key) (fun cs ss => (default [] (ss !! key), (cs, ss))).

#[export] Instance memStore : Store MemStore := {|
  FrequencyLimit := memFrequencyLimit;
  Expire := memExpire;
  Del := memDel;
  SAdd := memSAdd;
  SRem := memSRem;
  SMembers := memSMembers
|}.

(** ** A running example *)

Definition tenSeconds : Z := 10000000000.

Definition exampleConfig (blockDuration : Z) : Config :=
  mkConfig "api" tenSeconds 3 5 blockDuration (Some ErrorWarning) (Some ErrorBlock)
    [] [] (Some (fun _ _ => None)).

Definition exampleLimiter (blockDuration : Z) (wl bl : list string) : RateLimiter :=
  mkRateLimiter (exampleConfig blockDuration) wl bl "api-white" "api-black".

Definition emptyStore : MemStore := mkMemStore ∅ ∅ [] [].

Definition faultyStore (schedule : list (option string)) : MemStore :=
  mkMemStore ∅ ∅ schedule [].

Definition exampleWorld (blockDuration : Z) (wl bl : list string) : World MemStore :=
  mkWorld (exampleLimiter blockDuration wl bl) emptyStore [].

(** A store in which the counter of "u" (limiter "api") stands at [n]. *)
Definition countedStore (n : Z) (schedule : list (option string)) : MemStore :=
  mkMemStore {[ "api:u" := (n, tenSeconds) ]} ∅ schedule [].

(** An identity one call away from the block threshold, with a timed block
    and a store whose second operation fails, ... *)
Definition timedBlockWorld : World MemStore :=
  mkWorld (exampleLimiter 30 [] []) (countedStore 4 [None; Some "boom"]) [].

(** ... and the same with the permanent escalation. *)
Definition escalationWorld : World MemStore :=
  mkWorld (exampleLimiter 0 [] []) (countedStore 4 [None; Some "boom"]) [].

(** A blacklisted identity whose counter is past the block threshold. *)
Definition blockedWorld (schedule : list (option string)) : World MemStore :=
  mkWorld (exampleLimiter 0 [] ["u"])
    (mkMemStore {[ "api:u" := (7, tenSeconds) ]} {[ "api-black" := ["u"] ]} schedule [])
    [].

(** A configuration whose static whitelist repeats an id, and the world
    [New] builds from it over the empty store. *)
Definition dupConfig : Config :=
  mkConfig "api" tenSeconds 3 5 0 None None ["a"; "a"] [] None.

Definition dupWorld : World MemStore :=
  mkWorld (mkRateLimiter (withDefaults dupConfig) ["a"; "a"] [] "api-white" "api-black")
    (mkMemStore ∅ ∅ []
       [(CallSMembers "api-white", None); (CallSMembers "api-black", None)])
    [].

(** A store that already holds a whitelist for "api". *)
Definition seededStore (schedule : list (option string)) : MemStore :=
  mkMemStore ∅ {[ "api-white" := ["a"; "b"] ]} schedule [].

(** A configuration with static lists, a negative window and no error
    descriptors of its own. *)
Definition staticConfig : Config :=
  mkConfig "api" (-1) 3 5 0 None None ["a"] ["b"; "a"] None.

(** A configuration whose static blacklist repeats an id, and the world
    [New] builds from it over the empty store. *)
Definition dupBlackConfig : Config :=
  mkConfig "api" tenSeconds 3 5 0 None None [] ["u"; "u"] None.

Definition dupBlackWorld : World MemStore :=
  mkWorld (mkRateLimiter (withDefaults dupBlackConfig) [] ["u"; "u"] "api-white" "api-black")
    (mkMemStore ∅ ∅ []
       [(CallSMembers "api-white", None); (CallSMembers "api-black", None)])
    [].

(** A blacklisted identity under a block threshold of 1. *)
Definition strictWorld : World MemStore :=
  mkWorld (mkRateLimiter
             (mkConfig "api" tenSeconds 0 1 30 (Some ErrorWarning) (Some ErrorBlock)
                [] [] None)
             [] ["u"] "api-white" "api-black")
    (mkMemStore {[ "api:u" := (7, tenSeconds) ]} {[ "api-black" := ["u"] ]} [] [])
    [].

(** ** Vocabulary of the statements *)

(** Removal of the first occurrence, as a function of the list alone. *)
Fixpoint removeFirst (v : string) (l : list string) : list string :=
  match l with
  | [] => []
  | x :: rest => if String.eqb x v then rest else x :: removeFirst v rest
  end.

(** The four actions [Sub] recognizes, their names on the wire and the
    mutation each one stands for. *)
Inductive Action : Type := RemoveWhite | RemoveBlack | AddWhite | AddBlack.

Definition actionName (a : Action) : string :=
  match a with
  | RemoveWhite => "removeWhiteList"
  | RemoveBlack => "removeBlackList"
  | AddWhite => "addWhiteList"
  | AddBlack => "addBlackList"
  end.

Definition mutation {St : Type} `{Store St} (a : Action)
  : string -> bool -> M (option error) :=
  match a with
  | RemoveWhite => RemoveWhiteList
  | RemoveBlack => RemoveBlackList
  | AddWhite => AddWhiteList
  | AddBlack => AddBlackList
  end.

(** Whether a string holds a given byte. *)
Fixpoint hasByte (c : ascii) (s : string) : bool :=
  match s with
  | EmptyString => false
  | String x rest => if Ascii.eqb x c then true else hasByte c rest
  end.

(** The message a publishing mutation sends, if any. *)
Definition sent (rl : RateLimiter) (pub : bool) (msg : string) : list (string * string) :=
  match pub, Pub (config rl) with
  | true, Some _ => [(Name (config rl), msg)]
  | _, _ => []
  end.

Definition withBlackList (rl : RateLimiter) (l : list string) : RateLimiter :=
  mkRateLimiter (config rl) (whiteList rl) l (whiteListKey rl) (blackListKey rl).

Definition withWhiteList (rl : RateLimiter) (l : list string) : RateLimiter :=
  mkRateLimiter (config rl) l (blackList rl) (whiteListKey rl) (blackListKey rl).

Definition failure {A} (r : error + A) : option error :=
  match r with inl e => Some e | inr _ => None end.

(** The members a [SMembers] call contributes to seeding: none when the
    call failed. *)
Definition stored (r : error + list string) : list string :=
  match r with inr members => members | inl _ => [] end.

(** The store failures recorded between two states of the reference store. *)
Definition failuresBetween (before after : MemStore) : list string :=
  omap snd (drop (length (calls before)) (calls after)).

(** The count the reference store holds for a key: 0 when the key is
    absent. *)
Definition countOf (s : MemStore) (key : string) : Z :=
  match counters s !! key with Some (n, _) => n | None => 0 end.

(** The members the reference store holds under a set key. *)
Definition membersOf (s : MemStore) (key : string) : list string :=
  default [] (sets s !! key).

(** The calls a user of the limiter can make, and their effect on the
    world. *)
Inductive Op : Type :=
| OpCheck (id : string)
| OpCheckReset (id : string)
| OpSub (message : string)
| OpRemoveWhiteList (id : string) (pub : bool)
| OpRemoveBlackList (id : string) (pub : bool)
| OpAddWhiteList (id : string) (pub : bool)
| OpAddBlackList (id : string) (pub : bool)
| OpGetWhiteList (id : option string)
| OpGetBlackList (id : option string).

Definition run {St : Type} `{Store St} (o : Op) (w : World St) : World St :=
  match o with
  | OpCheck id => snd (Check id w)
  | OpCheckReset id => snd (CheckReset id w)
  | OpSub message => snd (Sub message w)
  | OpRemoveWhiteList id pub => snd (RemoveWhiteList id pub w)
  | OpRemoveBlackList id pub => snd (RemoveBlackList id pub w)
  | OpAddWhiteList id pub => snd (AddWhiteList id pub w)
  | OpAddBlackList id pub => snd (AddBlackList id pub w)
  | OpGetWhiteList id => snd (GetWhiteList id w)
  | OpGetBlackList id => snd (GetBlackList id w)
  end.

Definition runAll {St : Type} `{Store St} (ops : list Op) (w : World St) : World St :=
  foldl (fun w o => run o w) w ops.

(** A message of the synchronization protocol on the limiter's channel. *)
Definition syncEvent (rl : RateLimiter) (event : string * string) : Prop :=
  fst event = Name (config rl) ∧
  ∃ (a : Action) (id : string), snd event = actionName a +:+ "-" +:+ id.

(** What every call keeps: the configuration and the two set keys stay,
    a duplicate-free cache stays duplicate-free, and the trace of published
    messages only grows, by synchronization events, and only when a
    publisher is configured. *)
Definition evolves {St : Type} (w w' : World St) : Prop :=
  config (limiter w') = config (limiter w) ∧
  whiteListKey (limiter w') = whiteListKey (limiter w) ∧
  blackListKey (limiter w') = blackListKey (limiter w) ∧
  (NoDup (whiteList (limiter w)) -> NoDup (whiteList (limiter w'))) ∧
  (NoDup (blackList (limiter w)) -> NoDup (blackList (limiter w'))) ∧
  ∃ new, published w' = published w ++ new ∧
         (new ≠ [] -> Pub (config (limiter w)) ≠ None) ∧
         Forall (syncEvent (limiter w)) new.

(** The keys [New] derives from the name. *)
Definition wellKeyed (rl : RateLimiter) : Prop :=
  whiteListKey rl = Name (config rl) +:+ "-white" ∧
  blackListKey rl = Name (config rl) +:+ "-black".

(** The operations the reference store has been asked for, in order. *)
Definition asked (s : MemStore) : list StoreCall := map fst (calls s).

(** The store call a mutation starts with. *)
Definition persist {St : Type} `{Store St} (a : Action) (rl : RateLimiter) (id : string)
  : St -> (error + Z) * St :=
  match a with
  | RemoveWhite => SRem (whiteListKey rl) id
  | RemoveBlack => SRem (blackListKey rl) id
  | AddWhite => SAdd (whiteListKey rl) id
  | AddBlack => SAdd (blackListKey rl) id
  end.

(** The limiter a mutation leaves when the store accepts its calls. *)
Definition applied (a : Action) (id : string) (rl : RateLimiter) : RateLimiter :=
  match a with
  | RemoveWhite => withWhiteList rl (removeFirst id (whiteList rl))
  | RemoveBlack => withBlackList rl (removeFirst id (blackList rl))
  | AddWhite =>
      if ContainsString (whiteList rl) id then rl
      else withWhiteList rl (whiteList rl ++ [id])
  | AddBlack =>
      if ContainsString (blackList rl) id then rl
      else withBlackList rl (blackList rl ++ [id])
  end.

(** A few calls in a row. *)
Definition someCalls : list Op :=
  [OpAddWhiteList "a" true; OpCheck "u"; OpAddBlackList "b" true; OpSub "removeWhiteList-a";
   OpRemoveBlackList "b" true; OpGetWhiteList None; OpCheckReset "u"].

(** A [[]string] together with its backing array, for a slice that starts at
    the first cell of the array (as the two caches do): [cells] is the
    array, its length the capacity, and the first [len] cells are the
    elements of the slice. *)
Record slice := mkSlice { cells : list string; len : nat }.

Definition view (s : slice) : list string := take (len s) (cells s).

(** [append(s[:idx], s[idx+1:]...)], the removal in [RemoveWhiteList] and
    [RemoveBlackList]: [s[:idx]] keeps the capacity of [s], so append does
    not allocate; it copies the elements after [idx] one cell down in the
    same array and returns the slice of its first [len - 1] cells. *)
Definition removeInPlace (s : slice) (idx : nat) : slice :=
  mkSlice (take idx (cells s) ++
           take (len s - idx - 1) (drop (idx + 1) (cells s)) ++
           drop (len s - 1) (cells s))
          (len s - 1).

(** ** Facts about the list helpers *)

Lemma ContainsString_elem (l : list string) (v : string) :
  ContainsString l v = true ↔ v ∈ l.
Proof.
  induction l as [|x l IH]; simpl.
  - split; [discriminate | intros Hin; inversion Hin].
  - destruct (String.eqb_spec x v) as [->|Hne].
    + split; [intros _; left | reflexivity].
    + rewrite IH. split; [intros Hin; by right |].
      intros Hin. inversion Hin; subst; [congruence | assumption].
Qed.

Lemma ContainsString_not_elem (l : list string) (v : string) :
  ContainsString l v = false ↔ v ∉ l.
Proof.
  rewrite <- ContainsString_elem. destruct (ContainsString l v); split; congruence.
Qed.

Lemma IndexOfString_range (l : list string) (v : string) :
  -1 <= IndexOfString l v < Z.of_nat (length l).
Proof.
  induction l as [|x l IH]; simpl; [lia|].
  destruct (String.eqb x v); [lia|].
  destruct (Z.eqb_spec (IndexOfString l v) (-1)); lia.
Qed.

Lemma IndexOfString_absent (l : list string) (v : string) :
  IndexOfString l v = -1 ↔ v ∉ l.
Proof.
  induction l as [|x l IH]; simpl.
  - split; [intros _ Hin; inversion Hin | reflexivity].
  - destruct (String.eqb_spec x v) as [->|Hne].
    + split; [lia | intros Hn; exfalso; apply Hn; left].
    + pose proof (IndexOfString_range l v) as Hr.
      destruct (Z.eqb_spec (IndexOfString l v) (-1)) as [Heq|Hneq].
      * split; [|reflexivity]. intros _ Hin.
        inversion Hin; subst; [congruence | by apply IH].
      * split; [lia|]. intros Hn. exfalso. apply Hneq, IH.
        intros Hin. apply Hn. by right.
Qed.

Lemma removeAt_cons (x : string) (l : list string) (i : Z) :
  0 <= i -> removeAt (x :: l) (i + 1) = x :: removeAt l i.
Proof.
  intros Hi. unfold removeAt.
  replace (Z.to_nat (i + 1 + 1)) with (S (Z.to_nat (i + 1))) by lia.
  replace (Z.to_nat (i + 1)) with (S (Z.to_nat i)) by lia.
  reflexivity.
Qed.

Lemma removeAt_IndexOfString (l : list string) (v : string) :
  (if negb (IndexOfString l v =? -1) then removeAt l (IndexOfString l v) else l)
  = removeFirst v l.
Proof.
  induction l as [|x l IH]; simpl; [reflexivity|].
  destruct (String.eqb x v); simpl.
  - unfold removeAt. simpl. by rewrite drop_0.
  - pose proof (IndexOfString_range l v) as Hr.
    destruct (Z.eqb_spec (IndexOfString l v) (-1)) as [Heq|Hneq]; simpl.
    + rewrite Heq in IH. simpl in IH. by rewrite <- IH.
    + destruct (Z.eqb_spec (IndexOfString l v + 1) (-1)) as [|_]; [lia|]. simpl.
      rewrite removeAt_cons by lia.
      destruct (Z.eqb_spec (IndexOfString l v) (-1)); [lia|].
      simpl in IH. by rewrite IH.
Qed.

Lemma count_occ_removeFirst (v u : string) (l : list string) :
  count_occ string_dec (removeFirst v l) u =
  if decide (u = v) then Nat.pred (count_occ string_dec l u)
  else count_occ string_dec l u.
Proof.
  induction l as [|x l IH]; simpl.
  - by case_decide.
  - destruct (String.eqb_spec x v) as [->|Hne].
    + destruct (string_dec v u) as [->|Hvu]; case_decide; try congruence; reflexivity.
    + simpl. rewrite IH.
      destruct (string_dec x u) as [->|Hxu]; case_decide; try congruence; try reflexivity.
Qed.

Lemma count_occ_elem (l : list string) (v : string) :
  (0 < count_occ string_dec l v)%nat ↔ v ∈ l.
Proof.
  rewrite list_elem_of_In. split; intros Hv.
  - by apply (count_occ_In string_dec).
  - by apply (count_occ_In string_dec) in Hv.
Qed.

Lemma removeFirst_absent (v : string) (l : list string) :
  (count_occ string_dec l v <= 1)%nat -> v ∉ removeFirst v l.
Proof.
  intros Hc Hin. apply count_occ_elem in Hin.
  rewrite count_occ_removeFirst in Hin. case_decide; [lia | congruence].
Qed.

Lemma removeFirst_other (v u : string) (l : list string) :
  u ≠ v -> u ∈ removeFirst v l ↔ u ∈ l.
Proof.
  intros Hne. rewrite <- !count_occ_elem, count_occ_removeFirst.
  by case_decide.
Qed.

(** ** Facts about [Split] *)

Lemma Split_not_nil (s : string) (c : ascii) : Split s c ≠ [].
Proof.
  destruct s as [|x s]; simpl; [discriminate|].
  destruct (Ascii.eqb x c); [discriminate|].
  destruct (Split s c); discriminate.
Qed.

Lemma Split_without (s : string) (c : ascii) :
  hasByte c s = false -> Split s c = [s].
Proof.
  induction s as [|x s IH]; simpl; [reflexivity|].
  destruct (Ascii.eqb x c); [discriminate|].
  intros Hs. by rewrite IH.
Qed.

Lemma Split_with (s : string) (c : ascii) :
  hasByte c s = true -> (2 <= length (Split s c))%nat.
Proof.
  induction s as [|x s IH]; simpl; [discriminate|].
  destruct (Ascii.eqb x c).
  - intros _. pose proof (Split_not_nil s c).
    destruct (Split s c); [contradiction | simpl; lia].
  - intros Hs. specialize (IH Hs).
    destruct (Split s c); simpl in *; lia.
Qed.

Lemma Split_append (pre rest : string) (c : ascii) :
  hasByte c pre = false ->
  Split (pre +:+ String c rest) c = pre :: Split rest c.
Proof.
  induction pre as [|x pre IH]; simpl.
  - intros _. by rewrite Ascii.eqb_refl.
  - destruct (Ascii.eqb x c); [discriminate|].
    intros Hs. by rewrite IH.
Qed.

Lemma actionName_no_dash (a : Action) : hasByte dash (actionName a) = false.
Proof. by destruct a. Qed.

(** ** Facts about seeding *)

Lemma copyList_id (l : list string) : copyList l = l.
Proof.
  unfold copyList.
  assert (∀ acc : list string, foldl (λ a v, a ++ [v]) acc l = acc ++ l) as Hgen.
  { induction l as [|x l IH]; intros acc; simpl; [by rewrite app_nil_r|].
    rewrite IH. by rewrite <- app_assoc. }
  apply Hgen.
Qed.

Lemma seed_extends (local members : list string) :
  ∃ extra, seed local members = local ++ extra ∧ NoDup extra ∧
           (∀ x, x ∈ extra -> (x ∉ local) ∧ x ∈ members).
Proof.
  revert local. induction members as [|m members IH]; intros local.
  - exists []. simpl. rewrite app_nil_r. repeat split; [constructor | inversion H | inversion H].
  - unfold seed. simpl. fold (seed (if negb (ContainsString local m) then local ++ [m] else local) members).
    destruct (ContainsString local m) eqn:Hc; simpl.
    + destruct (IH local) as (extra & Heq & Hnd & Hex).
      exists extra. repeat split; try assumption; [by apply Hex|].
      right. by apply Hex.
    + apply ContainsString_not_elem in Hc.
      destruct (IH (local ++ [m])) as (extra & Heq & Hnd & Hex).
      exists (m :: extra). rewrite Heq, <- app_assoc. simpl.
      split; [reflexivity|]. split.
      * constructor; [|assumption]. intros Hin. apply Hex in Hin as [Hn _].
        apply Hn, elem_of_app. right. by apply list_elem_of_singleton.
      * intros x Hx. apply elem_of_cons in Hx as [->|Hx]; [split; [assumption | left]|].
        apply Hex in Hx as [Hn Hm]. split; [|by right].
        intros Hl. apply Hn, elem_of_app. by left.
Qed.

Lemma seed_elem (local members : list string) (x : string) :
  x ∈ seed local members ↔ x ∈ local ∨ x ∈ members.
Proof.
  revert local. induction members as [|m members IH]; intros local.
  - simpl. split; [by left | intros [Hl|Hm]; [assumption | inversion Hm]].
  - unfold seed. simpl. fold (seed (if negb (ContainsString local m) then local ++ [m] else local) members).
    rewrite IH. destruct (ContainsString local m) eqn:Hc; simpl.
    + apply ContainsString_elem in Hc. rewrite elem_of_cons.
      split; [intros [Hl|Hm]; auto | intros [Hl|[->|Hm]]; auto].
    + rewrite elem_of_app, list_elem_of_singleton, elem_of_cons.
      split; [intros [[Hl| ->]|Hm]; auto | intros [Hl|[->|Hm]]; auto].
Qed.

Lemma seed_NoDup (local members : list string) :
  NoDup local -> NoDup (seed local members).
Proof.
  intros Hnd. destruct (seed_extends local members) as (extra & -> & Hex & Hdis).
  apply NoDup_app. split; [assumption|]. split; [|assumption].
  intros x Hl Hx. by apply Hdis in Hx as [Hn _].
Qed.

(** ** The methods over an arbitrary store *)

Section Generic.

Context {St : Type} `{Store St}.

Implicit Types (w : World St) (id : string).

Lemma publish_spec (pub : bool) (msg : string) w :
  publish pub msg w =
  (tt, mkWorld (limiter w) (store w) (published w ++ sent (limiter w) pub msg)).
Proof.
  unfold publish, sent. destruct w as [rl s p]; simpl.
  destruct pub, (Pub (config rl)); simpl; by rewrite ?app_nil_r.
Qed.

Lemma CheckReset_spec id w r s1 :
  Del (counterKey (limiter w) id) (store w) = (r, s1) ->
  CheckReset id w = (failure r, mkWorld (limiter w) s1 (published w)).
Proof.
  intros HDel. unfold CheckReset, bind, self, call, ret. rewrite HDel.
  by destruct r.
Qed.

Lemma RemoveBlackList_failure id pub w e s1 :
  SRem (blackListKey (limiter w)) id (store w) = (inl e, s1) ->
  RemoveBlackList id pub w = (Some e, mkWorld (limiter w) s1 (published w)).
Proof.
  intros HRem. unfold RemoveBlackList, bind, self, call, ret. by rewrite HRem.
Qed.

Lemma RemoveBlackList_success id pub w n s1 r s2 :
  SRem (blackListKey (limiter w)) id (store w) = (inr n, s1) ->
  Del (counterKey (limiter w) id) s1 = (r, s2) ->
  RemoveBlackList id pub w =
  (failure r,
   mkWorld (withBlackList (limiter w) (removeFirst id (blackList (limiter w)))) s2
     (published w ++ sent (limiter w) pub ("removeBlackList-" +:+ id))).
Proof.
  intros HRem HDel. unfold RemoveBlackList, bind at 1 2, self, call. rewrite HRem.
  rewrite <- removeAt_IndexOfString.
  destruct w as [rl s p]; simpl in *.
  destruct (negb (IndexOfString (blackList rl) id =? -1)); unfold bind, setBlackList, ret;
    simpl; rewrite publish_spec; simpl.
  - erewrite CheckReset_spec by (simpl; exact HDel). reflexivity.
  - erewrite CheckReset_spec by (simpl; exact HDel). by destruct rl.
Qed.

Lemma RemoveWhiteList_failure id pub w e s1 :
  SRem (whiteListKey (limiter w)) id (store w) = (inl e, s1) ->
  RemoveWhiteList id pub w = (Some e, mkWorld (limiter w) s1 (published w)).
Proof.
  intros HRem. unfold RemoveWhiteList, bind, self, call, ret. by rewrite HRem.
Qed.

Lemma RemoveWhiteList_success id pub w n s1 :
  SRem (whiteListKey (limiter w)) id (store w) = (inr n, s1) ->
  RemoveWhiteList id pub w =
  (None,
   mkWorld (withWhiteList (limiter w) (removeFirst id (whiteList (limiter w)))) s1
     (published w ++ sent (limiter w) pub ("removeWhiteList-" +:+ id))).
Proof.
  intros HRem. unfold RemoveWhiteList, bind at 1 2, self, call. rewrite HRem.
  rewrite <- removeAt_IndexOfString.
  destruct w as [rl s p]; simpl in *.
  destruct (negb (IndexOfString (whiteList rl) id =? -1)); unfold bind, setWhiteList, ret;
    simpl; rewrite publish_spec; simpl; [reflexivity | by destruct rl].
Qed.

Lemma AddWhiteList_failure id pub w e s1 :
  SAdd (whiteListKey (limiter w)) id (store w) = (inl e, s1) ->
  AddWhiteList id pub w = (Some e, mkWorld (limiter w) s1 (published w)).
Proof.
  intros HAdd. unfold AddWhiteList, bind, self, call, ret. by rewrite HAdd.
Qed.

Lemma AddWhiteList_exists id pub w n s1 :
  SAdd (whiteListKey (limiter w)) id (store w) = (inr n, s1) ->
  id ∈ whiteList (limiter w) ->
  AddWhiteList id pub w =
  (Some (ErrBase (Some ErrorWhiteListExists)), mkWorld (limiter w) s1 (published w)).
Proof.
  intros HAdd Hin. unfold AddWhiteList, bind, self, call, ret. rewrite HAdd.
  destruct (Z.eqb_spec (IndexOfString (whiteList (limiter w)) id) (-1)) as [Habs|_];
    [|reflexivity].
  apply IndexOfString_absent in Habs. contradiction.
Qed.

Lemma AddWhiteList_fresh id pub w n s1 :
  SAdd (whiteListKey (limiter w)) id (store w) = (inr n, s1) ->
  id ∉ whiteList (limiter w) ->
  AddWhiteList id pub w =
  (None,
   mkWorld (withWhiteList (limiter w) (whiteList (limiter w) ++ [id])) s1
     (published w ++ sent (limiter w) pub ("addWhiteList-" +:+ id))).
Proof.
  intros HAdd Hin. unfold AddWhiteList, bind at 1 2, self, call. rewrite HAdd.
  apply IndexOfString_absent in Hin. rewrite Hin. simpl.
  unfold bind, setWhiteList, ret. simpl. by rewrite publish_spec.
Qed.

Lemma AddBlackList_failure id pub w e s1 :
  SAdd (blackListKey (limiter w)) id (store w) = (inl e, s1) ->
  AddBlackList id pub w = (Some e, mkWorld (limiter w) s1 (published w)).
Proof.
  intros HAdd. unfold AddBlackList, bind, self, call, ret. by rewrite HAdd.
Qed.

Lemma AddBlackList_exists id pub w n s1 :
  SAdd (blackListKey (limiter w)) id (store w) = (inr n, s1) ->
  id ∈ blackList (limiter w) ->
  AddBlackList id pub w =
  (Some (ErrBase (Some ErrorBlackListExists)), mkWorld (limiter w) s1 (published w)).
Proof.
  intros HAdd Hin. unfold AddBlackList, bind, self, call, ret. rewrite HAdd.
  destruct (Z.eqb_spec (IndexOfString (blackList (limiter w)) id) (-1)) as [Habs|_];
    [|reflexivity].
  apply IndexOfString_absent in Habs. contradiction.
Qed.

Lemma AddBlackList_fresh id pub w n s1 :
  SAdd (blackListKey (limiter w)) id (store w) = (inr n, s1) ->
  id ∉ blackList (limiter w) ->
  AddBlackList id pub w =
  (None,
   mkWorld (withBlackList (limiter w) (blackList (limiter w) ++ [id])) s1
     (published w ++ sent (limiter w) pub ("addBlackList-" +:+ id))).
Proof.
  intros HAdd Hin. unfold AddBlackList, bind at 1 2, self, call. rewrite HAdd.
  apply IndexOfString_absent in Hin. rewrite Hin. simpl.
  unfold bind, setBlackList, ret. simpl. by rewrite publish_spec.
Qed.

(** *** Check *)

Lemma Check_whitelisted id w :
  id ∈ whiteList (limiter w) -> Check id w = ((0, None), w).
Proof.
  intros Hin. apply ContainsString_elem in Hin.
  unfold Check, bind, self, ret, Contains. by rewrite Hin.
Qed.

Lemma Check_blacklisted id w :
  id ∉ whiteList (limiter w) -> id ∈ blackList (limiter w) ->
  Check id w = ((0, Blocked (limiter w)), w).
Proof.
  intros Hw Hb. apply ContainsString_not_elem in Hw. apply ContainsString_elem in Hb.
  unfold Check, bind, self, ret, Contains. by rewrite Hw, Hb.
Qed.

Ltac count_path Hw Hb HFL :=
  apply ContainsString_not_elem in Hw; apply ContainsString_not_elem in Hb;
  unfold Check, bind at 1 2, self, call, Contains; rewrite Hw, Hb, HFL.

Lemma Check_increment_failure id w e s1 :
  id ∉ whiteList (limiter w) -> id ∉ blackList (limiter w) ->
  FrequencyLimit (counterKey (limiter w) id) 0 (Duration (config (limiter w))) (store w)
    = (inl e, s1) ->
  Check id w = ((0, Some e), mkWorld (limiter w) s1 (published w)).
Proof. intros Hw Hb HFL. by count_path Hw Hb HFL. Qed.

Lemma Check_warned id w times s1 :
  id ∉ whiteList (limiter w) -> id ∉ blackList (limiter w) ->
  FrequencyLimit (counterKey (limiter w) id) 0 (Duration (config (limiter w))) (store w)
    = (inr times, s1) ->
  ¬ (0 < BlockTimes (config (limiter w)) <= times) ->
  0 < WarningTimes (config (limiter w)) <= times ->
  Check id w = ((times, Warned (limiter w)), mkWorld (limiter w) s1 (published w)).
Proof.
  intros Hw Hb HFL Hblock Hwarn. count_path Hw Hb HFL.
  destruct (Z.ltb_spec 0 (BlockTimes (config (limiter w))));
    destruct (Z.leb_spec (BlockTimes (config (limiter w))) times); simpl; try lia;
  destruct (Z.ltb_spec 0 (WarningTimes (config (limiter w))));
    destruct (Z.leb_spec (WarningTimes (config (limiter w))) times); simpl; try lia;
  reflexivity.
Qed.

Lemma Check_passed id w times s1 :
  id ∉ whiteList (limiter w) -> id ∉ blackList (limiter w) ->
  FrequencyLimit (counterKey (limiter w) id) 0 (Duration (config (limiter w))) (store w)
    = (inr times, s1) ->
  ¬ (0 < BlockTimes (config (limiter w)) <= times) ->
  ¬ (0 < WarningTimes (config (limiter w)) <= times) ->
  Check id w = ((times, None), mkWorld (limiter w) s1 (published w)).
Proof.
  intros Hw Hb HFL Hblock Hwarn. count_path Hw Hb HFL.
  destruct (Z.ltb_spec 0 (BlockTimes (config (limiter w))));
    destruct (Z.leb_spec (BlockTimes (config (limiter w))) times); simpl; try lia;
  destruct (Z.ltb_spec 0 (WarningTimes (config (limiter w))));
    destruct (Z.leb_spec (WarningTimes (config (limiter w))) times); simpl; try lia;
  reflexivity.
Qed.

Lemma Check_blocked_timed id w times s1 r s2 :
  id ∉ whiteList (limiter w) -> id ∉ blackList (limiter w) ->
  FrequencyLimit (counterKey (limiter w) id) 0 (Duration (config (limiter w))) (store w)
    = (inr times, s1) ->
  0 < BlockTimes (config (limiter w)) <= times ->
  BlockDuration (config (limiter w)) ≠ 0 ->
  Expire (counterKey (limiter w) id) (BlockDuration (config (limiter w))) s1 = (r, s2) ->
  Check id w = ((times, Blocked (limiter w)), mkWorld (limiter w) s2 (published w)).
Proof.
  intros Hw Hb HFL Hblock Hdur HExp. count_path Hw Hb HFL.
  destruct (Z.ltb_spec 0 (BlockTimes (config (limiter w))));
    destruct (Z.leb_spec (BlockTimes (config (limiter w))) times); simpl; try lia.
  destruct (Z.eqb_spec (BlockDuration (config (limiter w))) 0); [contradiction|].
  unfold bind, call, ret. simpl. by rewrite HExp.
Qed.

Lemma Check_blocked_forever id w times s1 :
  id ∉ whiteList (limiter w) -> id ∉ blackList (limiter w) ->
  FrequencyLimit (counterKey (limiter w) id) 0 (Duration (config (limiter w))) (store w)
    = (inr times, s1) ->
  0 < BlockTimes (config (limiter w)) <= times ->
  BlockDuration (config (limiter w)) = 0 ->
  Check id w =
  ((times, Blocked (limiter w)),
   snd (AddBlackList id true (mkWorld (limiter w) s1 (published w)))).
Proof.
  intros Hw Hb HFL Hblock Hdur. count_path Hw Hb HFL.
  destruct (Z.ltb_spec 0 (BlockTimes (config (limiter w))));
    destruct (Z.leb_spec (BlockTimes (config (limiter w))) times); simpl; try lia.
  rewrite Hdur. simpl. unfold bind, ret.
  by destruct (AddBlackList id true _).
Qed.

Lemma checks_fixed id w r (k : nat) :
  Check id w = (r, w) -> checks id k w = (replicate k r, w).
Proof.
  intros HC. induction k as [|k IH]; simpl; [reflexivity|].
  unfold bind, ret. rewrite HC. by rewrite IH.
Qed.

(** *** The claims that hold over every store *)

(** C2: for an id in the local whitelist cache, [Check id] returns (0, none)
    and leaves the world -- the store's state included, whatever the store
    is -- as it was, also when the id is in the blacklist cache too; for an
    id in the blacklist cache and not in the whitelist cache it returns
    (0, Blocked), again with the world, and so every counter, untouched. *)
Theorem Check_override id w :
  (id ∈ whiteList (limiter w) -> Check id w = ((0, None), w)) ∧
  (id ∉ whiteList (limiter w) -> id ∈ blackList (limiter w) ->
   Check id w = ((0, Blocked (limiter w)), w)).
Proof. split; [apply Check_whitelisted | apply Check_blacklisted]. Qed.

(** C3: with block duration 0, a [Check] whose count reaches the block
    threshold returns (count, Blocked) and leaves the world exactly as
    [AddBlackList id true] leaves it after the increment; when that call's
    set-add succeeds the id is in the blacklist cache, the event has been
    published, and every subsequent [Check id] returns (0, Blocked) without
    changing the world (no store call, so no counter is touched). *)
Theorem Check_permanent_block id w times s1 :
  id ∉ whiteList (limiter w) -> id ∉ blackList (limiter w) ->
  FrequencyLimit (counterKey (limiter w) id) 0 (Duration (config (limiter w))) (store w)
    = (inr times, s1) ->
  BlockDuration (config (limiter w)) = 0 ->
  0 < BlockTimes (config (limiter w)) <= times ->
  Check id w =
    ((times, Blocked (limiter w)),
     snd (AddBlackList id true (mkWorld (limiter w) s1 (published w)))) ∧
  ∀ n s2, SAdd (blackListKey (limiter w)) id s1 = (inr n, s2) ->
    let w' := snd (Check id w) in
    w' = mkWorld (withBlackList (limiter w) (blackList (limiter w) ++ [id])) s2
           (published w ++ sent (limiter w) true ("addBlackList-" +:+ id)) ∧
    id ∈ blackList (limiter w') ∧
    ∀ k : nat, checks id k w' = (replicate k (0, Blocked (limiter w)), w').
Proof.
  intros Hw Hb HFL Hdur Hblock.
  pose proof (Check_blocked_forever id w times s1 Hw Hb HFL Hblock Hdur) as HC.
  split; [exact HC|]. intros n s2 HAdd w'. subst w'. rewrite HC. simpl.
  rewrite (AddBlackList_fresh id true _ n s2) by (simpl; assumption). simpl.
  assert (id ∈ blackList (limiter w) ++ [id]) as Hin
    by (apply elem_of_app; right; by apply list_elem_of_singleton).
  split; [reflexivity|]. split; [exact Hin|].
  intros k. apply checks_fixed.
  rewrite Check_blacklisted; simpl; [reflexivity | assumption | exact Hin].
Qed.

(** C4, as amended: for an id in neither cache, a failure of the counter
    increment is returned to the caller as it is, with count 0 and no
    further store call; a failure of the expiry re-set of a timed block, or
    of the set-add of the blacklist escalation, is not surfaced: [Check]
    returns (count, Blocked) after that one call, whatever its outcome, and
    a failed escalation leaves the blacklist cache and the trace of
    published messages unchanged. *)
Theorem Check_store_failures id w :
  id ∉ whiteList (limiter w) -> id ∉ blackList (limiter w) ->
  let key := counterKey (limiter w) id in
  let increment := FrequencyLimit key 0 (Duration (config (limiter w))) (store w) in
  (∀ e s1, increment = (inl e, s1) ->
     Check id w = ((0, Some e), mkWorld (limiter w) s1 (published w))) ∧
  (∀ times s1 r s2, increment = (inr times, s1) ->
     0 < BlockTimes (config (limiter w)) <= times ->
     BlockDuration (config (limiter w)) ≠ 0 ->
     Expire key (BlockDuration (config (limiter w))) s1 = (r, s2) ->
     Check id w = ((times, Blocked (limiter w)), mkWorld (limiter w) s2 (published w))) ∧
  (∀ times s1 e s2, increment = (inr times, s1) ->
     0 < BlockTimes (config (limiter w)) <= times ->
     BlockDuration (config (limiter w)) = 0 ->
     SAdd (blackListKey (limiter w)) id s1 = (inl e, s2) ->
     Check id w = ((times, Blocked (limiter w)), mkWorld (limiter w) s2 (published w))).
Proof.
  intros Hw Hb key increment. subst key increment. repeat split.
  - intros e s1 HFL. by apply Check_increment_failure.
  - intros times s1 r s2 HFL Hblock Hdur HExp. by eapply Check_blocked_timed.
  - intros times s1 e s2 HFL Hblock Hdur HAdd.
    rewrite (Check_blocked_forever id w times s1) by assumption.
    by rewrite (AddBlackList_failure id true _ e s2) by (simpl; assumption).
Qed.

(** C6, as amended: when [AddWhiteList id] is called twice and the store's
    set-add succeeds both times, the second call fails with
    ErrorWhiteListExists, the store is in the state the second set-add left
    it in (the set-add is performed before the local existence check), and
    the limiter and the published trace are as the first call left them.
    The cache then holds the id as often as it held it before the first
    call, and at least once: exactly once whenever it held it at most once
    before, as every cache without duplicates does. *)
Theorem AddWhiteList_twice id pub1 pub2 w n1 s1 n2 s2 :
  SAdd (whiteListKey (limiter w)) id (store w) = (inr n1, s1) ->
  SAdd (whiteListKey (limiter w)) id s1 = (inr n2, s2) ->
  let w1 := snd (AddWhiteList id pub1 w) in
  AddWhiteList id pub2 w1 =
    (Some (ErrBase (Some ErrorWhiteListExists)),
     mkWorld (limiter w1) s2 (published w1)) ∧
  store w1 = s1 ∧
  count_occ string_dec (whiteList (limiter w1)) id
    = Nat.max 1 (count_occ string_dec (whiteList (limiter w)) id) ∧
  ((count_occ string_dec (whiteList (limiter w)) id <= 1)%nat ->
   count_occ string_dec (whiteList (limiter w1)) id = 1%nat).
Proof.
  intros HAdd1 HAdd2 w1. subst w1.
  assert (AddWhiteList id pub2 (snd (AddWhiteList id pub1 w)) =
            (Some (ErrBase (Some ErrorWhiteListExists)),
             mkWorld (limiter (snd (AddWhiteList id pub1 w))) s2
               (published (snd (AddWhiteList id pub1 w)))) ∧
          store (snd (AddWhiteList id pub1 w)) = s1 ∧
          count_occ string_dec (whiteList (limiter (snd (AddWhiteList id pub1 w)))) id
            = Nat.max 1 (count_occ string_dec (whiteList (limiter w)) id))
    as (Hsecond & Hstore & Hcount).
  { destruct (decide (id ∈ whiteList (limiter w))) as [Hin|Hout].
    - rewrite (AddWhiteList_exists id pub1 w n1 s1) by assumption. simpl.
      split; [|split; [reflexivity|]].
      + by rewrite (AddWhiteList_exists id pub2 _ n2 s2) by (simpl; assumption).
      + apply count_occ_elem in Hin. lia.
    - rewrite (AddWhiteList_fresh id pub1 w n1 s1) by assumption. simpl.
      split; [|split; [reflexivity|]].
      + rewrite (AddWhiteList_exists id pub2 _ n2 s2); simpl;
          [reflexivity | assumption |].
        apply elem_of_app; right; by apply list_elem_of_singleton.
      + rewrite count_occ_app. simpl.
        destruct (string_dec id id); [|congruence].
        destruct (count_occ string_dec (whiteList (limiter w)) id) eqn:Hc; [reflexivity|].
        exfalso. apply Hout, count_occ_elem. lia. }
  split; [exact Hsecond|]. split; [exact Hstore|]. split; [exact Hcount|].
  intros Hle. rewrite Hcount. lia.
Qed.

Lemma mutation_silent (a : Action) id w :
  published (snd (mutation a id false w)) = published w.
Proof.
  destruct a; simpl.
  - destruct (SRem (whiteListKey (limiter w)) id (store w)) as [[e|n] s1] eqn:HRem.
    + by rewrite (RemoveWhiteList_failure id false w e s1).
    + rewrite (RemoveWhiteList_success id false w n s1) by assumption.
      simpl. by rewrite app_nil_r.
  - destruct (SRem (blackListKey (limiter w)) id (store w)) as [[e|n] s1] eqn:HRem.
    + by rewrite (RemoveBlackList_failure id false w e s1).
    + destruct (Del (counterKey (limiter w) id) s1) as [r s2] eqn:HDel.
      rewrite (RemoveBlackList_success id false w n s1 r s2) by assumption.
      simpl. by rewrite app_nil_r.
  - destruct (SAdd (whiteListKey (limiter w)) id (store w)) as [[e|n] s1] eqn:HAdd.
    + by rewrite (AddWhiteList_failure id false w e s1).
    + destruct (decide (id ∈ whiteList (limiter w))).
      * by rewrite (AddWhiteList_exists id false w n s1).
      * rewrite (AddWhiteList_fresh id false w n s1) by assumption.
        simpl. by rewrite app_nil_r.
  - destruct (SAdd (blackListKey (limiter w)) id (store w)) as [[e|n] s1] eqn:HAdd.
    + by rewrite (AddBlackList_failure id false w e s1).
    + destruct (decide (id ∈ blackList (limiter w))).
      * by rewrite (AddBlackList_exists id false w n s1).
      * rewrite (AddBlackList_fresh id false w n s1) by assumption.
        simpl. by rewrite app_nil_r.
Qed.

Lemma Sub_recognized (a : Action) (message id : string) w :
  Split message dash = [actionName a; id] -> Sub message w = mutation a id false w.
Proof. intros HS. unfold Sub. rewrite HS. by destruct a. Qed.

Lemma Sub_unrecognized (message action id : string) w :
  Split message dash = [action; id] -> (∀ a, actionName a ≠ action) ->
  Sub message w = (None, w).
Proof.
  intros HS Hun. unfold Sub. rewrite HS.
  destruct (String.eqb_spec action "removeWhiteList") as [->|_];
    [by destruct (Hun RemoveWhite)|].
  destruct (String.eqb_spec action "removeBlackList") as [->|_];
    [by destruct (Hun RemoveBlack)|].
  destruct (String.eqb_spec action "addWhiteList") as [->|_];
    [by destruct (Hun AddWhite)|].
  destruct (String.eqb_spec action "addBlackList") as [->|_];
    [by destruct (Hun AddBlack)|].
  reflexivity.
Qed.

Lemma Sub_malformed (message : string) w :
  length (Split message dash) ≠ 2%nat -> Sub message w = (None, w).
Proof.
  intros Hlen. unfold Sub.
  destruct (Split message dash) as [|x [|y [|z l]]]; simpl in *; try reflexivity.
  lia.
Qed.

(** C8: a message of exactly two dash-separated segments whose first one is
    a recognized action is dispatched to the matching mutation with
    publish=false; whatever the message, [Sub] publishes nothing; a message
    that does not have exactly two segments, or whose action is not
    recognized, is ignored: [Sub] returns no error and the world is
    unchanged. *)
Theorem Sub_dispatch (message : string) w :
  (∀ a id, Split message dash = [actionName a; id] ->
     Sub message w = mutation a id false w) ∧
  published (snd (Sub message w)) = published w ∧
  (length (Split message dash) ≠ 2%nat -> Sub message w = (None, w)) ∧
  (∀ action id, Split message dash = [action; id] ->
     (∀ a, actionName a ≠ action) -> Sub message w = (None, w)).
Proof.
  split; [intros a id; apply Sub_recognized|].
  split; [|split; [apply Sub_malformed | intros action id; apply Sub_unrecognized]].
  destruct (decide (length (Split message dash) = 2%nat)) as [Hlen|Hlen];
    [|by rewrite Sub_malformed].
  destruct (Split message dash) as [|action [|id [|z l]]] eqn:HS; try discriminate.
  unfold Sub. rewrite HS.
  destruct (String.eqb action "removeWhiteList"); [apply (mutation_silent RemoveWhite)|].
  destruct (String.eqb action "removeBlackList"); [apply (mutation_silent RemoveBlack)|].
  destruct (String.eqb action "addWhiteList"); [apply (mutation_silent AddWhite)|].
  destruct (String.eqb action "addBlackList"); [apply (mutation_silent AddBlack)|].
  reflexivity.
Qed.

(** C10: when the set-removal at the start of [RemoveBlackList] fails, the
    call returns that error and nothing else happens (limiter and published
    trace unchanged, no further store call, so the counter is not reset);
    once the set-removal succeeds, the result is exactly the result of the
    counter deletion, whatever it is, and the id has by then been removed
    from the cache and the event (if publish was asked and a publisher is
    set) emitted -- also when the deletion fails. *)
Theorem RemoveBlackList_not_atomic id pub w :
  (∀ e s1, SRem (blackListKey (limiter w)) id (store w) = (inl e, s1) ->
     RemoveBlackList id pub w = (Some e, mkWorld (limiter w) s1 (published w))) ∧
  (∀ n s1 r s2, SRem (blackListKey (limiter w)) id (store w) = (inr n, s1) ->
     Del (counterKey (limiter w) id) s1 = (r, s2) ->
     RemoveBlackList id pub w =
     (failure r,
      mkWorld (withBlackList (limiter w) (removeFirst id (blackList (limiter w)))) s2
        (published w ++ sent (limiter w) pub ("removeBlackList-" +:+ id)))).
Proof.
  split.
  - intros e s1. apply RemoveBlackList_failure.
  - intros n s1 r s2. apply RemoveBlackList_success.
Qed.

Lemma Check_blocked id w times s1 :
  id ∉ whiteList (limiter w) -> id ∉ blackList (limiter w) ->
  FrequencyLimit (counterKey (limiter w) id) 0 (Duration (config (limiter w))) (store w)
    = (inr times, s1) ->
  0 < BlockTimes (config (limiter w)) <= times ->
  fst (Check id w) = (times, Blocked (limiter w)).
Proof.
  intros Hw Hb HFL Hblock.
  destruct (decide (BlockDuration (config (limiter w)) = 0)) as [Hdur|Hdur].
  - by rewrite (Check_blocked_forever id w times s1).
  - destruct (Expire (counterKey (limiter w) id) (BlockDuration (config (limiter w))) s1)
      as [r s2] eqn:HExp.
    by rewrite (Check_blocked_timed id w times s1 r s2).
Qed.

Lemma checks_S id (k : nat) w :
  fst (checks id (S k) w) = fst (Check id w) :: fst (checks id k (snd (Check id w))).
Proof.
  simpl. unfold bind, ret. destruct (Check id w) as [r w1]. simpl.
  by destruct (checks id k w1).
Qed.

(** C5, as amended: [Sub] cuts the message at every dash.  For a recognized
    action and an id without a dash, the message "<action>-<id>" has exactly
    two segments and is dispatched to the matching mutation with that id and
    publish=false; for an id that holds a dash the message has three
    segments or more and is ignored: no error, the world unchanged. *)
Theorem Sub_wire_format (a : Action) id w :
  let message := actionName a +:+ "-" +:+ id in
  (hasByte dash id = false ->
     Split message dash = [actionName a; id] ∧
     Sub message w = mutation a id false w) ∧
  (hasByte dash id = true ->
     (3 <= length (Split message dash))%nat ∧
     Sub message w = (None, w)).
Proof.
  intros message. subst message. change ("-" +:+ id) with (String dash id).
  rewrite (Split_append _ _ _ (actionName_no_dash a)). split.
  - intros Hid. rewrite (Split_without _ _ Hid). split; [reflexivity|].
    apply Sub_recognized. rewrite (Split_append _ _ _ (actionName_no_dash a)).
    by rewrite (Split_without _ _ Hid).
  - intros Hid. pose proof (Split_with _ _ Hid) as Hlen.
    split; [simpl; lia|]. apply Sub_malformed.
    rewrite (Split_append _ _ _ (actionName_no_dash a)). simpl. lia.
Qed.

(** C9, as amended: for a configuration [New] accepts, each cache is the
    configured list as it is (order and repetitions kept), followed by the
    members read from the store's set that are in neither the configured
    list nor among the members already taken, each once; so a cache holds
    exactly the ids of the configured list and of the stored set, and holds
    each id at most once whenever the configured list does.  A failed read
    counts as an empty set and [New] still returns a limiter. *)
Theorem New_seeding (c : Config) (s : St) :
  Name c ≠ "" -> Duration c ≠ 0 -> 0 <= BlockDuration c ->
  let rw := SMembers (Name c +:+ "-white") s in
  let rb := SMembers (Name c +:+ "-black") (snd rw) in
  ∃ w, New (Some c) s = inr w ∧ store w = snd rb ∧
    (∃ extra, whiteList (limiter w) = WhiteList c ++ extra ∧ NoDup extra ∧
              ∀ x, x ∈ extra -> (x ∉ WhiteList c) ∧ x ∈ stored (fst rw)) ∧
    (∃ extra, blackList (limiter w) = BlackList c ++ extra ∧ NoDup extra ∧
              ∀ x, x ∈ extra -> (x ∉ BlackList c) ∧ x ∈ stored (fst rb)) ∧
    (∀ x, x ∈ whiteList (limiter w) ↔ x ∈ WhiteList c ∨ x ∈ stored (fst rw)) ∧
    (∀ x, x ∈ blackList (limiter w) ↔ x ∈ BlackList c ∨ x ∈ stored (fst rb)) ∧
    (NoDup (WhiteList c) -> NoDup (whiteList (limiter w))) ∧
    (NoDup (BlackList c) -> NoDup (blackList (limiter w))).
Proof.
  intros Hname Hdur Hblock rw rb. subst rw rb. unfold New.
  destruct (String.eqb_spec (Name c) "") as [|_]; [contradiction|].
  destruct (Z.eqb_spec (Duration c) 0) as [|_]; [contradiction|].
  destruct (Z.ltb_spec (BlockDuration c) 0) as [|_]; [lia|].
  simpl. rewrite !copyList_id.
  destruct (SMembers (Name c +:+ "-white") s) as [rw s1]. simpl.
  destruct (SMembers (Name c +:+ "-black") s1) as [rb s2]. simpl.
  eexists. split; [reflexivity|]. simpl.
  assert (∀ l r, match r with inr members => seed l members | inl _ => l end
                 = seed l (stored r)) as Hseed by (by intros l [e|m]).
  rewrite !Hseed. split; [reflexivity|].
  split; [apply seed_extends|]. split; [apply seed_extends|].
  split; [intros x; apply seed_elem|]. split; [intros x; apply seed_elem|].
  split; apply seed_NoDup.
Qed.

End Generic.

(** ** The methods over the reference store *)

Lemma mem_FrequencyLimit (s : MemStore) (key : string) (limit duration : Z) :
  faults s = [] ->
  ∃ s', FrequencyLimit key limit duration s = (inr (countOf s key + 1), s') ∧
        faults s' = [] ∧ countOf s' key = countOf s key + 1.
Proof.
  intros Hf. simpl. unfold memFrequencyLimit, attempt, countOf. rewrite Hf.
  destruct (counters s !! key) as [[n ttl]|] eqn:Hk; simpl;
    (eexists; split; [reflexivity|]; simpl; split; [reflexivity|]);
    by rewrite lookup_insert_eq.
Qed.

Lemma mem_SRem (s : MemStore) (key member : string) :
  faults s = [] ->
  ∃ n s', SRem key member s = (inr n, s') ∧ faults s' = [] ∧
          counters s' = counters s ∧ member ∉ membersOf s' key.
Proof.
  intros Hf. simpl. unfold memSRem, attempt, membersOf. rewrite Hf.
  destruct (ContainsString (default [] (sets s !! key)) member) eqn:Hc; simpl.
  - do 2 eexists. split; [reflexivity|]. simpl. repeat split.
    rewrite lookup_insert_eq. simpl. intros Hin.
    apply list_elem_of_In, filter_In in Hin as [_ Hneq].
    by rewrite String.eqb_refl in Hneq.
  - do 2 eexists. split; [reflexivity|]. simpl. repeat split.
    by apply ContainsString_not_elem.
Qed.

Lemma mem_Del (s : MemStore) (key : string) :
  faults s = [] ->
  ∃ n s', Del key s = (inr n, s') ∧ faults s' = [] ∧ countOf s' key = 0 ∧
          counters s' !! key = None ∧
          ∀ k x, x ∈ membersOf s' k -> x ∈ membersOf s k.
Proof.
  intros Hf. simpl. unfold memDel, attempt, membersOf, countOf. rewrite Hf. simpl.
  do 2 eexists. split; [reflexivity|]. simpl. rewrite lookup_delete_eq.
  repeat split. intros k x.
  destruct (decide (key = k)) as [->|Hne].
  - rewrite lookup_delete_eq. simpl. intros Hin. inversion Hin.
  - by rewrite lookup_delete_ne.
Qed.

Lemma Check_mem_below (w : World MemStore) (id : string) (n : Z) :
  id ∉ whiteList (limiter w) -> id ∉ blackList (limiter w) ->
  faults (store w) = [] ->
  countOf (store w) (counterKey (limiter w) id) = n ->
  ¬ (0 < BlockTimes (config (limiter w)) <= n + 1) ->
  ∃ s1, Check id w =
          ((n + 1, if decide (0 < WarningTimes (config (limiter w)) <= n + 1)
                   then Warned (limiter w) else None),
           mkWorld (limiter w) s1 (published w)) ∧
        faults s1 = [] ∧ countOf s1 (counterKey (limiter w) id) = n + 1.
Proof.
  intros Hw Hb Hf Hn Hblock. subst n.
  destruct (mem_FrequencyLimit (store w) (counterKey (limiter w) id) 0
              (Duration (config (limiter w))) Hf) as (s1 & HFL & Hf1 & Hc1).
  exists s1. split; [|by split]. case_decide.
  - by apply Check_warned.
  - by apply Check_passed.
Qed.

Lemma Check_mem_blocked (w : World MemStore) (id : string) (n : Z) :
  id ∉ whiteList (limiter w) -> id ∉ blackList (limiter w) ->
  faults (store w) = [] ->
  countOf (store w) (counterKey (limiter w) id) = n ->
  0 < BlockTimes (config (limiter w)) <= n + 1 ->
  fst (Check id w) = (n + 1, Blocked (limiter w)).
Proof.
  intros Hw Hb Hf Hn Hblock. subst n.
  destruct (mem_FrequencyLimit (store w) (counterKey (limiter w) id) 0
              (Duration (config (limiter w))) Hf) as (s1 & HFL & _).
  by apply (Check_blocked id w _ s1).
Qed.

(** C1: with warning threshold 3 and block threshold 5, for an identity in
    neither cache whose counter does not exist yet (a fresh window; the
    store does not fail), five successive [Check] calls return the counts
    1..5, the first two with no error, the third and fourth with Warned, the
    fifth with Blocked.  In general, over every store: a count that reaches
    the block threshold is reported as Blocked, whatever the warning
    threshold is, the block comparison coming first. *)
Theorem Check_thresholds :
  (∀ (w : World MemStore) (id : string),
     WarningTimes (config (limiter w)) = 3 ->
     BlockTimes (config (limiter w)) = 5 ->
     id ∉ whiteList (limiter w) -> id ∉ blackList (limiter w) ->
     faults (store w) = [] ->
     counters (store w) !! counterKey (limiter w) id = None ->
     fst (checks id 5 w) =
       [(1, None); (2, None); (3, Warned (limiter w)); (4, Warned (limiter w));
        (5, Blocked (limiter w))]) ∧
  (∀ (St : Type) (ops : Store St) (w : World St) (id : string) (times : Z) (s1 : St),
     id ∉ whiteList (limiter w) -> id ∉ blackList (limiter w) ->
     FrequencyLimit (counterKey (limiter w) id) 0 (Duration (config (limiter w)))
       (store w) = (inr times, s1) ->
     0 < BlockTimes (config (limiter w)) <= times ->
     fst (Check id w) = (times, Blocked (limiter w))).
Proof.
  split; [|intros St ops w id times s1; apply Check_blocked].
  intros [rl s p] id Hwarn Hblock Hw Hb Hf Hfresh.
  simpl in Hwarn, Hblock, Hw, Hb, Hf, Hfresh.
  assert (countOf s (counterKey rl id) = 0) as Hc
    by (unfold countOf; by rewrite Hfresh).
  destruct (Check_mem_below (mkWorld rl s p) id 0 Hw Hb Hf Hc)
    as (s1 & HC1 & Hf1 & Hc1); [simpl; lia|].
  destruct (Check_mem_below (mkWorld rl s1 p) id 1 Hw Hb Hf1 Hc1)
    as (s2 & HC2 & Hf2 & Hc2); [simpl; lia|].
  destruct (Check_mem_below (mkWorld rl s2 p) id 2 Hw Hb Hf2 Hc2)
    as (s3 & HC3 & Hf3 & Hc3); [simpl; lia|].
  destruct (Check_mem_below (mkWorld rl s3 p) id 3 Hw Hb Hf3 Hc3)
    as (s4 & HC4 & Hf4 & Hc4); [simpl; lia|].
  pose proof (Check_mem_blocked (mkWorld rl s4 p) id 4 Hw Hb Hf4 Hc4) as HC5.
  simpl in HC1, HC2, HC3, HC4, HC5. rewrite Hwarn in HC1, HC2, HC3, HC4.
  rewrite !checks_S.
  rewrite HC1; cbn [fst snd]. rewrite HC2; cbn [fst snd].
  rewrite HC3; cbn [fst snd]. rewrite HC4; cbn [fst snd].
  rewrite HC5 by lia.
  repeat case_decide; try lia. reflexivity.
Qed.

(** C7, as amended: when the store does not fail, [RemoveBlackList id
    publish] returns no error whether or not the cache holds the id, takes
    the id out of the store's set, takes the first occurrence of the id out
    of the cache and deletes the counter key of the id.  For an id that is
    not whitelisted: if the cache held the id at most once, the id is gone
    from the cache and the [Check] that follows counts 1, the first call of
    a fresh window, whatever the count was before; it returns that count
    with the block error if the block threshold is 1, else with the warning
    error if the warning threshold is 1, else with no error.  If the cache
    held the id more than once, it still holds it and the [Check] that
    follows returns (0, Blocked) without reaching the counter. *)
Theorem RemoveBlackList_resets (w : World MemStore) (id : string) (pub : bool) :
  faults (store w) = [] ->
  id ∉ whiteList (limiter w) ->
  let w1 := snd (RemoveBlackList id pub w) in
  fst (RemoveBlackList id pub w) = None ∧
  limiter w1 = withBlackList (limiter w) (removeFirst id (blackList (limiter w))) ∧
  (id ∉ membersOf (store w1) (blackListKey (limiter w))) ∧
  counters (store w1) !! counterKey (limiter w) id = None ∧
  ((count_occ string_dec (blackList (limiter w)) id <= 1)%nat ->
   (id ∉ blackList (limiter w1)) ∧
   fst (fst (Check id w1)) = 1 ∧
   (BlockTimes (config (limiter w)) = 1 ->
    fst (Check id w1) = (1, Blocked (limiter w))) ∧
   (BlockTimes (config (limiter w)) ≠ 1 -> WarningTimes (config (limiter w)) = 1 ->
    fst (Check id w1) = (1, Warned (limiter w))) ∧
   (BlockTimes (config (limiter w)) ≠ 1 -> WarningTimes (config (limiter w)) ≠ 1 ->
    fst (Check id w1) = (1, None))) ∧
  ((2 <= count_occ string_dec (blackList (limiter w)) id)%nat ->
   id ∈ blackList (limiter w1) ∧
   Check id w1 = ((0, Blocked (limiter w)), w1)).
Proof.
  intros Hf Hw w1. subst w1.
  destruct (mem_SRem (store w) (blackListKey (limiter w)) id Hf)
    as (n & s1 & HRem & Hf1 & _ & Hmem1).
  destruct (mem_Del s1 (counterKey (limiter w) id) Hf1)
    as (m & s2 & HDel & Hf2 & Hc2 & Hnone & Hsub).
  rewrite (RemoveBlackList_success id pub w n s1 _ s2 HRem HDel). simpl.
  split; [reflexivity|]. split; [reflexivity|].
  split; [intros Hin; by apply Hmem1, Hsub|]. split; [exact Hnone|].
  set (w1 := mkWorld _ s2 _). split.
  - intros Hcount.
    pose proof (removeFirst_absent id (blackList (limiter w)) Hcount) as Hgone.
    split; [exact Hgone|].
    destruct (decide (0 < BlockTimes (config (limiter w)) <= 1)) as [Hblock|Hblock].
    + rewrite (Check_mem_blocked w1 id 0); try assumption.
      split; [reflexivity|]. split; [reflexivity|]. split; intros; lia.
    + destruct (Check_mem_below w1 id 0) as (s3 & HC & _); try assumption.
      rewrite HC. simpl. split; [reflexivity|]. split; [intros; lia|].
      destruct (decide (0 < WarningTimes (config (limiter w)) <= 0 + 1)) as [Hwarn|Hwarn].
      * split; [reflexivity | intros; lia].
      * split; [intros; lia | reflexivity].
  - intros Hcount.
    assert (id ∈ removeFirst id (blackList (limiter w))) as Hstill.
    { apply count_occ_elem. rewrite count_occ_removeFirst.
      rewrite decide_True by reflexivity. lia. }
    split; [exact Hstill|]. by rewrite Check_blacklisted.
Qed.

(** ** The theorems at work on the running example *)

Ltac member :=
  first [ apply ContainsString_not_elem; reflexivity
        | apply ContainsString_elem; reflexivity ].

Lemma Check_thresholds_witness :
  fst (checks "u" 5 (exampleWorld 30 [] [])) =
    [(1, None); (2, None);
     (3, Some (ErrBase (Some ErrorWarning))); (4, Some (ErrBase (Some ErrorWarning)));
     (5, Some (ErrBase (Some ErrorBlock)))] ∧
  fst (Check "u" timedBlockWorld) = (5, Some (ErrBase (Some ErrorBlock))).
Proof.
  split.
  - apply (proj1 Check_thresholds (exampleWorld 30 [] []) "u");
      try reflexivity; member.
  - apply (proj2 Check_thresholds MemStore memStore timedBlockWorld "u" 5
             (snd (memFrequencyLimit "api:u" 0 tenSeconds (store timedBlockWorld))));
      try reflexivity; try member.
    simpl. lia.
Defined.

Lemma Check_override_witness :
  Check "a" (exampleWorld 0 ["a"] ["a"]) = ((0, None), exampleWorld 0 ["a"] ["a"]) ∧
  Check "b" (exampleWorld 0 ["a"] ["b"]) =
    ((0, Some (ErrBase (Some ErrorBlock))), exampleWorld 0 ["a"] ["b"]).
Proof.
  split.
  - apply (proj1 (Check_override "a" (exampleWorld 0 ["a"] ["a"]))). member.
  - apply (proj2 (Check_override "b" (exampleWorld 0 ["a"] ["b"]))); member.
Defined.

Lemma Check_permanent_block_witness :
  blackList (limiter (snd (Check "u" (mkWorld (exampleLimiter 0 [] []) (countedStore 4 []) []))))
    = ["u"] ∧
  published (snd (Check "u" (mkWorld (exampleLimiter 0 [] []) (countedStore 4 []) [])))
    = [("api", "addBlackList-u")] ∧
  fst (checks "u" 3 (snd (Check "u" (mkWorld (exampleLimiter 0 [] []) (countedStore 4 []) []))))
    = [(0, Some (ErrBase (Some ErrorBlock))); (0, Some (ErrBase (Some ErrorBlock)));
       (0, Some (ErrBase (Some ErrorBlock)))].
Proof.
  pose (w := mkWorld (exampleLimiter 0 [] []) (countedStore 4 []) []).
  pose (s1 := snd (memFrequencyLimit "api:u" 0 tenSeconds (countedStore 4 []))).
  pose (s2 := snd (memSAdd "api-black" "u" s1)).
  assert ("u" ∉ whiteList (limiter w)) as Hw by member.
  assert ("u" ∉ blackList (limiter w)) as Hb by member.
  assert (0 < BlockTimes (config (limiter w)) <= 5) as Hblock by (simpl; lia).
  assert (FrequencyLimit (counterKey (limiter w) "u") 0 (Duration (config (limiter w)))
            (store w) = (inr 5, s1)) as HFL by reflexivity.
  assert (SAdd (blackListKey (limiter w)) "u" s1 = (inr 1, s2)) as HAdd by reflexivity.
  destruct (Check_permanent_block "u" w 5 s1 Hw Hb HFL eq_refl Hblock) as [_ Hnext].
  destruct (Hnext 1 s2 HAdd) as (Hworld & _ & Hchecks).
  fold w. rewrite (Hchecks 3%nat), Hworld. repeat split.
Defined.

Lemma Check_store_failures_witness :
  Check "u" (mkWorld (exampleLimiter 30 [] []) (faultyStore [Some "down"]) [])
    = ((0, Some (ErrForeign "down")),
       mkWorld (exampleLimiter 30 [] [])
         (mkMemStore ∅ ∅ [] [(CallFrequencyLimit "api:u" 0 tenSeconds, Some "down")]) []) ∧
  Check "u" timedBlockWorld
    = ((5, Some (ErrBase (Some ErrorBlock))),
       mkWorld (exampleLimiter 30 [] [])
         (mkMemStore {[ "api:u" := (5, tenSeconds) ]} ∅ []
            [(CallFrequencyLimit "api:u" 0 tenSeconds, None);
             (CallExpire "api:u" 30, Some "boom")]) []) ∧
  Check "u" escalationWorld
    = ((5, Some (ErrBase (Some ErrorBlock))),
       mkWorld (exampleLimiter 0 [] [])
         (mkMemStore {[ "api:u" := (5, tenSeconds) ]} ∅ []
            [(CallFrequencyLimit "api:u" 0 tenSeconds, None);
             (CallSAdd "api-black" "u", Some "boom")]) []).
Proof.
  split; [|split].
  - pose (w := mkWorld (exampleLimiter 30 [] []) (faultyStore [Some "down"]) []).
    assert ("u" ∉ whiteList (limiter w)) as Hw by member.
    assert ("u" ∉ blackList (limiter w)) as Hb by member.
    destruct (Check_store_failures "u" w Hw Hb) as (Hincrement & _ & _).
    apply (Hincrement (ErrForeign "down")
             (mkMemStore ∅ ∅ [] [(CallFrequencyLimit "api:u" 0 tenSeconds, Some "down")])).
    reflexivity.
  - assert ("u" ∉ whiteList (limiter timedBlockWorld)) as Hw by member.
    assert ("u" ∉ blackList (limiter timedBlockWorld)) as Hb by member.
    destruct (Check_store_failures "u" timedBlockWorld Hw Hb) as (_ & Hexpire & _).
    apply (Hexpire 5
             (mkMemStore {[ "api:u" := (5, tenSeconds) ]} ∅ [Some "boom"]
                [(CallFrequencyLimit "api:u" 0 tenSeconds, None)])
             (inl (ErrForeign "boom")));
      [reflexivity | simpl; lia | simpl; lia | reflexivity].
  - assert ("u" ∉ whiteList (limiter escalationWorld)) as Hw by member.
    assert ("u" ∉ blackList (limiter escalationWorld)) as Hb by member.
    destruct (Check_store_failures "u" escalationWorld Hw Hb) as (_ & _ & Hescalate).
    apply (Hescalate 5
             (mkMemStore {[ "api:u" := (5, tenSeconds) ]} ∅ [Some "boom"]
                [(CallFrequencyLimit "api:u" 0 tenSeconds, None)])
             (ErrForeign "boom"));
      [reflexivity | simpl; lia | reflexivity | reflexivity].
Defined.

(** C4, the claim as stated fails: with a timed block the expiry re-set
    fails in the store, with the permanent escalation the set-add fails,
    and in both runs [Check] returns (5, Blocked), not the store's error. *)
Lemma Check_swallows_store_failure :
  (failuresBetween (store timedBlockWorld) (store (snd (Check "u" timedBlockWorld)))
     = ["boom"] ∧
   calls (store (snd (Check "u" timedBlockWorld)))
     = [(CallFrequencyLimit "api:u" 0 tenSeconds, None);
        (CallExpire "api:u" 30, Some "boom")] ∧
   snd (fst (Check "u" timedBlockWorld)) = Some (ErrBase (Some ErrorBlock)) ∧
   snd (fst (Check "u" timedBlockWorld)) ≠ Some (ErrForeign "boom")) ∧
  (failuresBetween (store escalationWorld) (store (snd (Check "u" escalationWorld)))
     = ["boom"] ∧
   calls (store (snd (Check "u" escalationWorld)))
     = [(CallFrequencyLimit "api:u" 0 tenSeconds, None);
        (CallSAdd "api-black" "u", Some "boom")] ∧
   snd (fst (Check "u" escalationWorld)) = Some (ErrBase (Some ErrorBlock)) ∧
   snd (fst (Check "u" escalationWorld)) ≠ Some (ErrForeign "boom")).
Proof. repeat split; try reflexivity; discriminate. Qed.

Lemma Sub_wire_format_witness :
  Sub "addWhiteList-alice" (exampleWorld 0 [] [])
    = AddWhiteList "alice" false (exampleWorld 0 [] []) ∧
  Sub "removeBlackList-a-b" (exampleWorld 0 [] ["a-b"])
    = (None, exampleWorld 0 [] ["a-b"]).
Proof.
  split.
  - apply (proj1 (Sub_wire_format AddWhite "alice" (exampleWorld 0 [] []))).
    reflexivity.
  - apply (proj2 (Sub_wire_format RemoveBlack "a-b" (exampleWorld 0 [] ["a-b"]))).
    reflexivity.
Defined.

(** C5, the claim as stated fails: the message for the recognized action
    addWhiteList and the id "a-b" is cut into three segments, not two, and
    [Sub] ignores it, where [AddWhiteList "a-b" false] would have added the
    id to the set in the store and to the cache. *)
Lemma Sub_drops_dashed_id :
  Split (actionName AddWhite +:+ "-" +:+ "a-b") dash = ["addWhiteList"; "a"; "b"] ∧
  Sub (actionName AddWhite +:+ "-" +:+ "a-b") (exampleWorld 0 [] [])
    = (None, exampleWorld 0 [] []) ∧
  whiteList (limiter (snd (mutation AddWhite "a-b" false (exampleWorld 0 [] []))))
    = ["a-b"] ∧
  Sub (actionName AddWhite +:+ "-" +:+ "a-b") (exampleWorld 0 [] [])
    ≠ mutation AddWhite "a-b" false (exampleWorld 0 [] []).
Proof.
  repeat split; try reflexivity.
  intros Heq. apply (f_equal (fun r => whiteList (limiter (snd r)))) in Heq.
  discriminate Heq.
Qed.

Lemma AddWhiteList_twice_witness :
  AddWhiteList "alice" true (snd (AddWhiteList "alice" true (exampleWorld 0 [] [])))
    = (Some (ErrBase (Some ErrorWhiteListExists)),
       mkWorld (exampleLimiter 0 ["alice"] [])
         (mkMemStore ∅ {[ "api-white" := ["alice"] ]} []
            [(CallSAdd "api-white" "alice", None); (CallSAdd "api-white" "alice", None)])
         [("api", "addWhiteList-alice")]) ∧
  count_occ string_dec
    (whiteList (limiter (snd (AddWhiteList "alice" true (exampleWorld 0 [] []))))) "alice"
    = 1%nat.
Proof.
  pose (w := exampleWorld 0 [] []).
  pose (s1 := snd (memSAdd "api-white" "alice" emptyStore)).
  pose (s2 := snd (memSAdd "api-white" "alice" s1)).
  assert (SAdd (whiteListKey (limiter w)) "alice" (store w) = (inr 1, s1)) as HAdd1
    by reflexivity.
  assert (SAdd (whiteListKey (limiter w)) "alice" s1 = (inr 0, s2)) as HAdd2
    by reflexivity.
  destruct (AddWhiteList_twice "alice" true true w 1 s1 0 s2 HAdd1 HAdd2)
    as (Hsecond & _ & _ & Honce).
  split; [|apply Honce; simpl; lia]. fold w. rewrite Hsecond. reflexivity.
Defined.

(** C6, the claim as stated fails: [New] builds, from a configured
    whitelist that repeats an id, a cache that holds the id twice; both
    [AddWhiteList] calls for that id then fail with ErrorWhiteListExists
    (the store accepting both set-adds) and the cache still holds the id
    twice, not exactly once. *)
Lemma AddWhiteList_twice_on_duplicates :
  New (Some dupConfig) emptyStore = inr dupWorld ∧
  fst (AddWhiteList "a" true dupWorld) = Some (ErrBase (Some ErrorWhiteListExists)) ∧
  fst (AddWhiteList "a" true (snd (AddWhiteList "a" true dupWorld)))
    = Some (ErrBase (Some ErrorWhiteListExists)) ∧
  failuresBetween (store dupWorld)
    (store (snd (AddWhiteList "a" true (snd (AddWhiteList "a" true dupWorld))))) = [] ∧
  whiteList (limiter (snd (AddWhiteList "a" true (snd (AddWhiteList "a" true dupWorld)))))
    = ["a"; "a"] ∧
  count_occ string_dec
    (whiteList (limiter (snd (AddWhiteList "a" true (snd (AddWhiteList "a" true dupWorld))))))
    "a" ≠ 1%nat.
Proof. repeat split; try reflexivity. discriminate. Qed.

Lemma RemoveBlackList_resets_witness :
  fst (RemoveBlackList "u" true (blockedWorld [])) = None ∧
  blackList (limiter (snd (RemoveBlackList "u" true (blockedWorld [])))) = [] ∧
  fst (Check "u" (snd (RemoveBlackList "u" true (blockedWorld [])))) = (1, None) ∧
  Check "u" (snd (RemoveBlackList "u" true dupBlackWorld))
    = ((0, Some (ErrBase (Some ErrorBlock))), snd (RemoveBlackList "u" true dupBlackWorld)).
Proof.
  assert (faults (store (blockedWorld [])) = []) as Hf by reflexivity.
  assert ("u" ∉ whiteList (limiter (blockedWorld []))) as Hw by member.
  destruct (RemoveBlackList_resets (blockedWorld []) "u" true Hf Hw)
    as (Hnone & Hlimiter & _ & _ & Honce & _).
  destruct Honce as (_ & _ & _ & _ & Hfresh); [simpl; lia|].
  assert (faults (store dupBlackWorld) = []) as Hf' by reflexivity.
  assert ("u" ∉ whiteList (limiter dupBlackWorld)) as Hw' by member.
  destruct (RemoveBlackList_resets dupBlackWorld "u" true Hf' Hw')
    as (_ & _ & _ & _ & _ & Htwice).
  destruct Htwice as [_ Hblocked]; [simpl; lia|].
  split; [exact Hnone|]. split; [by rewrite Hlimiter|].
  split; [apply Hfresh; simpl; lia | exact Hblocked].
Defined.

(** C7, the claim as stated fails.  [New] builds, from a configured
    blacklist that repeats an id, a cache that holds the id twice;
    [RemoveBlackList] for that id returns no error and leaves one occurrence
    in the cache, and the [Check] that follows returns (0, Blocked).  And
    under a block threshold of 1 the [Check] that follows a removal counts 1
    and returns the block error: the fresh window is not below the
    threshold. *)
Lemma RemoveBlackList_keeps_duplicate :
  (New (Some dupBlackConfig) emptyStore = inr dupBlackWorld ∧
   fst (RemoveBlackList "u" true dupBlackWorld) = None ∧
   blackList (limiter (snd (RemoveBlackList "u" true dupBlackWorld))) = ["u"] ∧
   fst (Check "u" (snd (RemoveBlackList "u" true dupBlackWorld)))
     = (0, Some (ErrBase (Some ErrorBlock)))) ∧
  (fst (RemoveBlackList "u" true strictWorld) = None ∧
   blackList (limiter (snd (RemoveBlackList "u" true strictWorld))) = [] ∧
   fst (Check "u" (snd (RemoveBlackList "u" true strictWorld)))
     = (1, Some (ErrBase (Some ErrorBlock)))).
Proof. repeat split; reflexivity. Qed.

Lemma Sub_dispatch_witness :
  Sub "addWhiteList-alice" (exampleWorld 0 [] [])
    = AddWhiteList "alice" false (exampleWorld 0 [] []) ∧
  published (snd (Sub "addWhiteList-alice" (exampleWorld 0 [] []))) = [] ∧
  Sub "bogus" (exampleWorld 0 [] []) = (None, exampleWorld 0 [] []) ∧
  Sub "unknownAction-bob" (exampleWorld 0 [] []) = (None, exampleWorld 0 [] []).
Proof.
  split; [|split; [|split]].
  - apply (proj1 (Sub_dispatch "addWhiteList-alice" (exampleWorld 0 [] [])) AddWhite "alice").
    reflexivity.
  - apply (proj1 (proj2 (Sub_dispatch "addWhiteList-alice" (exampleWorld 0 [] [])))).
  - apply (proj1 (proj2 (proj2 (Sub_dispatch "bogus" (exampleWorld 0 [] []))))).
    simpl. lia.
  - apply (proj2 (proj2 (proj2 (Sub_dispatch "unknownAction-bob" (exampleWorld 0 [] []))))
             "unknownAction" "bob"); [reflexivity|].
    intros a. destruct a; discriminate.
Defined.

Lemma New_seeding_witness :
  ∃ w, New (Some (exampleConfig 0)) (seededStore [None; Some "down"]) = inr w ∧
       whiteList (limiter w) = ["a"; "b"] ∧ blackList (limiter w) = [].
Proof.
  assert (Name (exampleConfig 0) ≠ "") as Hname by discriminate.
  assert (Duration (exampleConfig 0) ≠ 0) as Hdur by discriminate.
  assert (0 <= BlockDuration (exampleConfig 0)) as Hblock by (simpl; lia).
  destruct (New_seeding (exampleConfig 0) (seededStore [None; Some "down"])
              Hname Hdur Hblock) as (w & HNew & _).
  exists w. split; [exact HNew|].
  assert (New (Some (exampleConfig 0)) (seededStore [None; Some "down"])
          = inr (mkWorld (exampleLimiter 0 ["a"; "b"] [])
                   (mkMemStore ∅ {[ "api-white" := ["a"; "b"] ]} []
                      [(CallSMembers "api-white", None);
                       (CallSMembers "api-black", Some "down")]) [])) as Hrun
    by reflexivity.
  rewrite Hrun in HNew. injection HNew as <-. by split.
Defined.

(** C9, the claim as stated fails: from a configured whitelist that repeats
    an id, [New] builds a cache that holds the id twice. *)
Lemma New_keeps_configured_duplicates :
  New (Some dupConfig) emptyStore = inr dupWorld ∧
  whiteList (limiter dupWorld) = ["a"; "a"] ∧
  ¬ NoDup (whiteList (limiter dupWorld)).
Proof.
  split; [reflexivity|]. split; [reflexivity|].
  intros Hnd. apply NoDup_cons in Hnd as [Hnotin _].
  apply Hnotin. left.
Qed.

Lemma RemoveBlackList_not_atomic_witness :
  RemoveBlackList "u" true (blockedWorld [Some "down"])
    = (Some (ErrForeign "down"),
       mkWorld (exampleLimiter 0 [] ["u"])
         (mkMemStore {[ "api:u" := (7, tenSeconds) ]} {[ "api-black" := ["u"] ]} []
            [(CallSRem "api-black" "u", Some "down")]) []) ∧
  RemoveBlackList "u" true (blockedWorld [None; Some "down"])
    = (Some (ErrForeign "down"),
       mkWorld (exampleLimiter 0 [] [])
         (mkMemStore {[ "api:u" := (7, tenSeconds) ]} {[ "api-black" := [] ]} []
            [(CallSRem "api-black" "u", None); (CallDel "api:u", Some "down")])
         [("api", "removeBlackList-u")]).
Proof.
  split.
  - apply (proj1 (RemoveBlackList_not_atomic "u" true (blockedWorld [Some "down"]))).
    reflexivity.
  - pose (s1 := snd (memSRem "api-black" "u" (store (blockedWorld [None; Some "down"])))).
    pose (s2 := snd (memDel "api:u" s1)).
    assert (SRem (blackListKey (limiter (blockedWorld [None; Some "down"]))) "u"
              (store (blockedWorld [None; Some "down"])) = (inr 1, s1)) as HRem
      by reflexivity.
    assert (Del (counterKey (limiter (blockedWorld [None; Some "down"])) "u") s1
            = (inl (ErrForeign "down"), s2)) as HDel by reflexivity.
    rewrite (proj2 (RemoveBlackList_not_atomic "u" true (blockedWorld [None; Some "down"]))
               1 s1 (inl (ErrForeign "down")) s2 HRem HDel).
    reflexivity.
Defined.

(** ** What every call keeps *)

Lemma removeFirst_subset (v x : string) (l : list string) :
  x ∈ removeFirst v l -> x ∈ l.
Proof.
  induction l as [|y l IH]; simpl; [done|].
  destruct (String.eqb y v).
  - intros Hin. by right.
  - intros Hin. apply elem_of_cons in Hin as [->|Hin]; [left | right; by apply IH].
Qed.

Lemma NoDup_removeFirst (v : string) (l : list string) :
  NoDup l -> NoDup (removeFirst v l).
Proof.
  induction 1 as [|y l Hy Hnd IH]; simpl; [constructor|].
  destruct (String.eqb y v); [assumption|].
  constructor; [|assumption]. intros Hin. by apply Hy, (removeFirst_subset v).
Qed.

Lemma NoDup_snoc (l : list string) (x : string) :
  x ∉ l -> NoDup l -> NoDup (l ++ [x]).
Proof.
  intros Hx Hnd. apply NoDup_app. split; [assumption|]. split.
  - intros y Hy Hin. apply list_elem_of_singleton in Hin as ->. contradiction.
  - apply NoDup_singleton.
Qed.

Lemma removeFirst_snoc (l : list string) (x : string) :
  x ∉ l -> removeFirst x (l ++ [x]) = l.
Proof.
  induction l as [|y l IH]; simpl; intros Hx.
  - by rewrite String.eqb_refl.
  - destruct (String.eqb_spec y x) as [->|Hne]; [exfalso; apply Hx; left|].
    rewrite IH; [reflexivity|]. intros Hin. apply Hx. by right.
Qed.

Lemma sent_events (rl : RateLimiter) (pub : bool) (a : Action) (id : string) :
  (sent rl pub (actionName a +:+ "-" +:+ id) ≠ [] -> Pub (config rl) ≠ None) ∧
  Forall (syncEvent rl) (sent rl pub (actionName a +:+ "-" +:+ id)).
Proof.
  unfold sent. destruct pub, (Pub (config rl)) as [f|]; split;
    try (intros Hne; by destruct Hne); try apply List.Forall_nil.
  - intros _. discriminate.
  - apply List.Forall_cons; [|apply List.Forall_nil].
    split; [reflexivity|]. by exists a, id.
Qed.

Section Effects.

Context {St : Type} `{Store St}.

Implicit Types (w : World St) (id : string).

Lemma evolves_refl w : evolves w w.
Proof.
  repeat split; try done. exists []. rewrite app_nil_r.
  repeat split; [done | apply List.Forall_nil].
Qed.

Lemma evolves_trans w1 w2 w3 : evolves w1 w2 -> evolves w2 w3 -> evolves w1 w3.
Proof.
  intros (Hc1 & Hwk1 & Hbk1 & Hw1 & Hb1 & new1 & Hp1 & Hpub1 & Hev1)
         (Hc2 & Hwk2 & Hbk2 & Hw2 & Hb2 & new2 & Hp2 & Hpub2 & Hev2).
  split; [congruence|]. split; [congruence|]. split; [congruence|].
  split; [auto|]. split; [auto|].
  exists (new1 ++ new2). rewrite Hp2, Hp1, app_assoc. split; [reflexivity|]. split.
  - intros Hne. destruct new1 as [|e new1]; [|by apply Hpub1].
    rewrite <- Hc1. apply Hpub2. by destruct new2.
  - apply Forall_app. split; [assumption|].
    eapply Forall_impl; [exact Hev2|]. intros e [Hch Hmsg].
    split; [by rewrite Hch, Hc1 | assumption].
Qed.

Lemma evolves_store w s1 : evolves w (mkWorld (limiter w) s1 (published w)).
Proof.
  repeat split; try done. exists []. simpl. rewrite app_nil_r.
  repeat split; [done | apply List.Forall_nil].
Qed.

Lemma evolves_lists w wl bl s1 (pub : bool) (a : Action) id :
  (NoDup (whiteList (limiter w)) -> NoDup wl) ->
  (NoDup (blackList (limiter w)) -> NoDup bl) ->
  evolves w
    (mkWorld (mkRateLimiter (config (limiter w)) wl bl (whiteListKey (limiter w))
                (blackListKey (limiter w))) s1
       (published w ++ sent (limiter w) pub (actionName a +:+ "-" +:+ id))).
Proof.
  intros Hwl Hbl. repeat split; simpl; try done.
  exists (sent (limiter w) pub (actionName a +:+ "-" +:+ id)).
  split; [reflexivity|]. apply sent_events.
Qed.

Lemma AddWhiteList_evolves id pub w : evolves w (snd (AddWhiteList id pub w)).
Proof.
  destruct (SAdd (whiteListKey (limiter w)) id (store w)) as [[e|n] s1] eqn:HAdd.
  - rewrite (AddWhiteList_failure id pub w e s1) by assumption. apply evolves_store.
  - destruct (decide (id ∈ whiteList (limiter w))) as [Hin|Hout].
    + rewrite (AddWhiteList_exists id pub w n s1) by assumption. apply evolves_store.
    + rewrite (AddWhiteList_fresh id pub w n s1) by assumption.
      apply (evolves_lists w _ _ s1 pub AddWhite id); [by apply NoDup_snoc | done].
Qed.

Lemma AddBlackList_evolves id pub w : evolves w (snd (AddBlackList id pub w)).
Proof.
  destruct (SAdd (blackListKey (limiter w)) id (store w)) as [[e|n] s1] eqn:HAdd.
  - rewrite (AddBlackList_failure id pub w e s1) by assumption. apply evolves_store.
  - destruct (decide (id ∈ blackList (limiter w))) as [Hin|Hout].
    + rewrite (AddBlackList_exists id pub w n s1) by assumption. apply evolves_store.
    + rewrite (AddBlackList_fresh id pub w n s1) by assumption.
      apply (evolves_lists w _ _ s1 pub AddBlack id); [done | by apply NoDup_snoc].
Qed.

Lemma RemoveWhiteList_evolves id pub w : evolves w (snd (RemoveWhiteList id pub w)).
Proof.
  destruct (SRem (whiteListKey (limiter w)) id (store w)) as [[e|n] s1] eqn:HRem.
  - rewrite (RemoveWhiteList_failure id pub w e s1) by assumption. apply evolves_store.
  - rewrite (RemoveWhiteList_success id pub w n s1) by assumption.
    apply (evolves_lists w _ _ s1 pub RemoveWhite id); [apply NoDup_removeFirst | done].
Qed.

Lemma RemoveBlackList_evolves id pub w : evolves w (snd (RemoveBlackList id pub w)).
Proof.
  destruct (SRem (blackListKey (limiter w)) id (store w)) as [[e|n] s1] eqn:HRem.
  - rewrite (RemoveBlackList_failure id pub w e s1) by assumption. apply evolves_store.
  - destruct (Del (counterKey (limiter w) id) s1) as [r s2] eqn:HDel.
    rewrite (RemoveBlackList_success id pub w n s1 r s2) by assumption.
    apply (evolves_lists w _ _ s2 pub RemoveBlack id); [done | apply NoDup_removeFirst].
Qed.

Lemma CheckReset_evolves id w : evolves w (snd (CheckReset id w)).
Proof.
  destruct (Del (counterKey (limiter w) id) (store w)) as [r s1] eqn:HDel.
  rewrite (CheckReset_spec id w r s1) by assumption. apply evolves_store.
Qed.

(** The ways [Check] can leave the world: as it was on the override paths;
    otherwise with the store as the increment left it, or as the expiry
    re-set after it left it, or as the escalation to the blacklist leaves
    the world. *)
Lemma Check_world id w :
  let key := counterKey (limiter w) id in
  let s1 := snd (FrequencyLimit key 0 (Duration (config (limiter w))) (store w)) in
  ((id ∈ whiteList (limiter w) ∨ id ∈ blackList (limiter w)) ∧ snd (Check id w) = w) ∨
  ((id ∉ whiteList (limiter w)) ∧ (id ∉ blackList (limiter w)) ∧
   (snd (Check id w) = mkWorld (limiter w) s1 (published w) ∨
    (BlockDuration (config (limiter w)) ≠ 0 ∧
     snd (Check id w)
     = mkWorld (limiter w)
         (snd (Expire key (BlockDuration (config (limiter w))) s1)) (published w)) ∨
    (BlockDuration (config (limiter w)) = 0 ∧
     snd (Check id w)
     = snd (AddBlackList id true (mkWorld (limiter w) s1 (published w)))))).
Proof.
  intros key s1. subst key s1.
  destruct (decide (id ∈ whiteList (limiter w))) as [Hw|Hw];
    [left; split; [by left | by rewrite Check_whitelisted]|].
  destruct (decide (id ∈ blackList (limiter w))) as [Hb|Hb];
    [left; split; [by right | by rewrite Check_blacklisted]|].
  right. split; [assumption|]. split; [assumption|].
  destruct (FrequencyLimit (counterKey (limiter w) id) 0 (Duration (config (limiter w)))
              (store w)) as [[e|times] s1] eqn:HFL; simpl.
  { left. by rewrite (Check_increment_failure id w e s1). }
  destruct (decide (0 < BlockTimes (config (limiter w)) <= times)) as [Hblock|Hblock].
  - destruct (decide (BlockDuration (config (limiter w)) = 0)) as [Hdur|Hdur].
    + right. right. split; [assumption|].
      by rewrite (Check_blocked_forever id w times s1).
    + right. left. split; [assumption|].
      destruct (Expire (counterKey (limiter w) id) (BlockDuration (config (limiter w))) s1)
        as [r s2] eqn:HExp.
      by rewrite (Check_blocked_timed id w times s1 r s2).
  - left.
    destruct (decide (0 < WarningTimes (config (limiter w)) <= times)).
    + by rewrite (Check_warned id w times s1).
    + by rewrite (Check_passed id w times s1).
Qed.

Lemma Check_evolves id w : evolves w (snd (Check id w)).
Proof.
  destruct (Check_world id w) as [[_ ->]|(_ & _ & [->|[[_ ->]|[_ ->]]])].
  - apply evolves_refl.
  - apply evolves_store.
  - apply evolves_store.
  - eapply evolves_trans; [apply evolves_store|]. apply AddBlackList_evolves.
Qed.

Lemma Sub_evolves (message : string) w : evolves w (snd (Sub message w)).
Proof.
  unfold Sub. destruct (Split message dash) as [|action [|id [|z l]]];
    try apply evolves_refl.
  destruct (String.eqb action "removeWhiteList"); [apply RemoveWhiteList_evolves|].
  destruct (String.eqb action "removeBlackList"); [apply RemoveBlackList_evolves|].
  destruct (String.eqb action "addWhiteList"); [apply AddWhiteList_evolves|].
  destruct (String.eqb action "addBlackList"); [apply AddBlackList_evolves|].
  apply evolves_refl.
Qed.

Lemma GetWhiteList_world (oid : option string) w : snd (GetWhiteList oid w) = w.
Proof.
  unfold GetWhiteList, bind, self, ret. destruct oid as [v|]; [|reflexivity].
  by destruct (ContainsString (whiteList (limiter w)) v).
Qed.

Lemma GetBlackList_world (oid : option string) w : snd (GetBlackList oid w) = w.
Proof.
  unfold GetBlackList, bind, self, ret. destruct oid as [v|]; [|reflexivity].
  by destruct (ContainsString (blackList (limiter w)) v).
Qed.

Lemma run_evolves (o : Op) w : evolves w (run o w).
Proof.
  destruct o; simpl.
  - apply Check_evolves.
  - apply CheckReset_evolves.
  - apply Sub_evolves.
  - apply RemoveWhiteList_evolves.
  - apply RemoveBlackList_evolves.
  - apply AddWhiteList_evolves.
  - apply AddBlackList_evolves.
  - rewrite GetWhiteList_world. apply evolves_refl.
  - rewrite GetBlackList_world. apply evolves_refl.
Qed.

Lemma runAll_evolves (ops : list Op) w : evolves w (runAll ops w).
Proof.
  revert w. induction ops as [|o ops IH]; intros w; [apply evolves_refl|].
  simpl. eapply evolves_trans; [apply run_evolves | apply IH].
Qed.

End Effects.

(** ** Construction *)

Section Construction.

Context {St : Type} `{Store St}.

Implicit Types (w : World St) (id : string) (s : St).

Lemma New_accepted (c : Config) s :
  Name c ≠ "" -> Duration c ≠ 0 -> 0 <= BlockDuration c ->
  let rw := SMembers (Name c +:+ "-white") s in
  let rb := SMembers (Name c +:+ "-black") (snd rw) in
  New (Some c) s =
  inr (mkWorld (mkRateLimiter (withDefaults c)
                  (seed (WhiteList c) (stored (fst rw)))
                  (seed (BlackList c) (stored (fst rb)))
                  (Name c +:+ "-white") (Name c +:+ "-black"))
         (snd rb) []).
Proof.
  intros Hname Hdur Hblock rw rb. subst rw rb. unfold New.
  destruct (String.eqb_spec (Name c) "") as [|_]; [contradiction|].
  destruct (Z.eqb_spec (Duration c) 0) as [|_]; [contradiction|].
  destruct (Z.ltb_spec (BlockDuration c) 0) as [|_]; [lia|].
  simpl. rewrite !copyList_id.
  destruct (SMembers (Name c +:+ "-white") s) as [[e|m] s1]; simpl;
    destruct (SMembers (Name c +:+ "-black") s1) as [[e'|m'] s2]; reflexivity.
Qed.

(** X1: [New] returns a limiter exactly for a non-nil configuration with a
    non-empty name, a window other than 0 (a negative one is accepted), a
    block duration that is not negative and a [Store] that is not nil,
    whatever the store answers.  It panics otherwise: for the nil
    configuration first, then for the name, the window and the block
    duration, in that order and whatever the [Store] pointer is; a
    configuration that passes the four checks with a nil [Store] fails on
    the nil pointer at the first read of the store.  With a [Store] set,
    the outcome is that of [New] over the state of that store. *)
Theorem New_returns_iff (c : option Config) (s : option St) :
  ((∃ w, NewOn c s = Returns w) ↔
   ∃ cfg st, c = Some cfg ∧ s = Some st ∧
             Name cfg ≠ "" ∧ Duration cfg ≠ 0 ∧ 0 <= BlockDuration cfg) ∧
  (∀ st, NewOn c (Some st)
         = match New c st with inl p => Panics p | inr w => Returns w end) ∧
  (c = None -> NewOn c s = Panics PanicNilConfig) ∧
  (∀ cfg, c = Some cfg ->
     (Name cfg = "" -> NewOn c s = Panics PanicNoName) ∧
     (Name cfg ≠ "" -> Duration cfg = 0 -> NewOn c s = Panics PanicNoDuration) ∧
     (Name cfg ≠ "" -> Duration cfg ≠ 0 -> BlockDuration cfg < 0 ->
      NewOn c s = Panics PanicNegativeBlockDuration) ∧
     (Name cfg ≠ "" -> Duration cfg ≠ 0 -> 0 <= BlockDuration cfg -> s = None ->
      NewOn c s = NilStore)).
Proof.
  split; [|split; [|split]].
  - split.
    + intros [w HNew]. destruct c as [cfg|]; [|discriminate]. exists cfg.
      unfold NewOn in HNew.
      destruct (String.eqb_spec (Name cfg) ""); [discriminate|].
      destruct (Z.eqb_spec (Duration cfg) 0); [discriminate|].
      destruct (Z.ltb_spec (BlockDuration cfg) 0); [discriminate|].
      destruct s as [st|]; [|discriminate]. exists st. by repeat split.
    + intros (cfg & st & -> & -> & Hname & Hdur & Hblock). unfold NewOn.
      destruct (String.eqb_spec (Name cfg) ""); [contradiction|].
      destruct (Z.eqb_spec (Duration cfg) 0); [contradiction|].
      destruct (Z.ltb_spec (BlockDuration cfg) 0); [lia|].
      rewrite New_accepted by assumption. by eexists.
  - intros st. destruct c as [cfg|]; [|reflexivity]. unfold NewOn.
    destruct (String.eqb (Name cfg) "") eqn:Hname; [unfold New; by rewrite Hname|].
    destruct (Duration cfg =? 0) eqn:Hdur; [unfold New; by rewrite Hname, Hdur|].
    destruct (BlockDuration cfg <? 0) eqn:Hblock;
      [unfold New; by rewrite Hname, Hdur, Hblock|].
    reflexivity.
  - by intros ->.
  - intros cfg ->. unfold NewOn. repeat split.
    + intros ->. reflexivity.
    + intros Hname ->. by destruct (String.eqb_spec (Name cfg) "").
    + intros Hname Hdur Hblock.
      destruct (String.eqb_spec (Name cfg) ""); [contradiction|].
      destruct (Z.eqb_spec (Duration cfg) 0); [contradiction|].
      by destruct (Z.ltb_spec (BlockDuration cfg) 0); [|lia].
    + intros Hname Hdur Hblock ->.
      destruct (String.eqb_spec (Name cfg) ""); [contradiction|].
      destruct (Z.eqb_spec (Duration cfg) 0); [contradiction|].
      by destruct (Z.ltb_spec (BlockDuration cfg) 0); [lia|].
Qed.

(** X2: on the limiter [New] returns, the set keys are the name followed by
    -white and -black, an error descriptor left nil in the configuration is
    the package default and a configured one is kept, and nothing has been
    published; the configured lists are in force at once: a [Check] of an
    id of the configured whitelist returns (0, none), and a [Check] of an id
    of the configured blacklist that is in neither the configured nor the
    stored whitelist returns 0 with the block error, both without touching
    the store. *)
Theorem New_static_lists (c : Config) s w id :
  New (Some c) s = inr w ->
  wellKeyed (limiter w) ∧ Name (config (limiter w)) = Name c ∧
  BlockError (config (limiter w)) = Some (default ErrorBlock (BlockError c)) ∧
  WarningError (config (limiter w)) = Some (default ErrorWarning (WarningError c)) ∧
  published w = [] ∧
  (id ∈ WhiteList c -> Check id w = ((0, None), w)) ∧
  (id ∈ BlackList c -> id ∉ WhiteList c ->
   id ∉ stored (fst (SMembers (Name c +:+ "-white") s)) ->
   Check id w = ((0, Some (ErrBase (Some (default ErrorBlock (BlockError c))))), w)).
Proof.
  intros HNew.
  assert (Name c ≠ "" ∧ Duration c ≠ 0 ∧ 0 <= BlockDuration c) as (Hname & Hdur & Hblock).
  { unfold New in HNew.
    destruct (String.eqb_spec (Name c) ""); [discriminate|].
    destruct (Z.eqb_spec (Duration c) 0); [discriminate|].
    destruct (Z.ltb_spec (BlockDuration c) 0); [discriminate|]. by repeat split. }
  rewrite (New_accepted c s Hname Hdur Hblock) in HNew. injection HNew as <-. simpl.
  split; [by split|]. split; [reflexivity|].
  split; [by destruct (BlockError c)|]. split; [by destruct (WarningError c)|].
  split; [reflexivity|]. split.
  - intros Hin. apply Check_whitelisted. simpl. apply seed_elem. by left.
  - intros Hb Hw Hstored. rewrite Check_blacklisted; simpl.
    + unfold Blocked. simpl. by destruct (BlockError c).
    + intros Hin. apply seed_elem in Hin as [Hin|Hin]; contradiction.
    + apply seed_elem. by left.
Qed.

(** X3: [NewWithConfig] on a non-nil configuration runs [New] under the
    name "<application name>-<Name>": it never panics for a missing name,
    also when the configured name is empty, and the limiter it returns has
    that name and the set keys derived from it. *)
Theorem NewWithConfig_prefix (appName : string) (c : Config) s :
  NewWithConfig appName (Some c) s ≠ Some (inl PanicNoName) ∧
  (Duration c ≠ 0 -> 0 <= BlockDuration c ->
   ∃ w, NewWithConfig appName (Some c) s = Some (inr w) ∧
        Name (config (limiter w)) = appName +:+ "-" +:+ Name c ∧
        whiteListKey (limiter w) = (appName +:+ "-" +:+ Name c) +:+ "-white" ∧
        blackListKey (limiter w) = (appName +:+ "-" +:+ Name c) +:+ "-black").
Proof.
  assert (appName +:+ "-" +:+ Name c ≠ "") as Hname
    by (induction appName; discriminate).
  split.
  - unfold NewWithConfig, New. simpl.
    destruct (String.eqb_spec (appName +:+ "-" +:+ Name c) ""); [contradiction|].
    destruct (Duration c =? 0); [discriminate|].
    destruct (BlockDuration c <? 0); [discriminate|].
    destruct (SMembers _ s) as [rw s1]. destruct (SMembers _ s1) as [rb s2].
    discriminate.
  - intros Hdur Hblock. unfold NewWithConfig.
    rewrite New_accepted by (simpl; assumption). simpl.
    eexists. split; [reflexivity|]. by repeat split.
Qed.

End Construction.

(** ** Invariants, round trips and failure behaviour *)

Section Properties.

Context {St : Type} `{Store St}.

Implicit Types (w : World St) (id : string).

(** X4: no sequence of calls changes the configuration the limiter was
    built with, or its two set keys; so keys derived from the name stay
    derived from the name. *)
Theorem runAll_keeps_configuration (ops : list Op) w :
  config (limiter (runAll ops w)) = config (limiter w) ∧
  whiteListKey (limiter (runAll ops w)) = whiteListKey (limiter w) ∧
  blackListKey (limiter (runAll ops w)) = blackListKey (limiter w) ∧
  (wellKeyed (limiter w) -> wellKeyed (limiter (runAll ops w))).
Proof.
  destruct (runAll_evolves ops w) as (Hc & Hwk & Hbk & _).
  split; [assumption|]. split; [assumption|]. split; [assumption|].
  intros [Hw Hb]. split; congruence.
Qed.

(** X5: caches without duplicates stay without duplicates under every
    sequence of calls. *)
Theorem runAll_keeps_caches_duplicate_free (ops : list Op) w :
  NoDup (whiteList (limiter w)) -> NoDup (blackList (limiter w)) ->
  NoDup (whiteList (limiter (runAll ops w))) ∧
  NoDup (blackList (limiter (runAll ops w))).
Proof.
  intros Hw Hb. destruct (runAll_evolves ops w) as (_ & _ & _ & Hwl & Hbl & _).
  split; auto.
Qed.

(** X6: a limiter [New] builds from configured lists without duplicates
    has caches without duplicates after every sequence of calls. *)
Theorem New_caches_stay_duplicate_free (c : Config) (s : St) w (ops : list Op) :
  New (Some c) s = inr w ->
  NoDup (WhiteList c) -> NoDup (BlackList c) ->
  NoDup (whiteList (limiter (runAll ops w))) ∧
  NoDup (blackList (limiter (runAll ops w))).
Proof.
  intros HNew Hw Hb.
  assert (Name c ≠ "" ∧ Duration c ≠ 0 ∧ 0 <= BlockDuration c) as (Hname & Hdur & Hblock).
  { unfold New in HNew.
    destruct (String.eqb_spec (Name c) ""); [discriminate|].
    destruct (Z.eqb_spec (Duration c) 0); [discriminate|].
    destruct (Z.ltb_spec (BlockDuration c) 0); [discriminate|]. by repeat split. }
  rewrite (New_accepted c s Hname Hdur Hblock) in HNew. injection HNew as <-.
  destruct (runAll_evolves ops (mkWorld (mkRateLimiter (withDefaults c)
              (seed (WhiteList c) (stored (fst (SMembers (Name c +:+ "-white") s))))
              (seed (BlackList c) (stored (fst (SMembers (Name c +:+ "-black")
                 (snd (SMembers (Name c +:+ "-white") s))))))
              (Name c +:+ "-white") (Name c +:+ "-black"))
              (snd (SMembers (Name c +:+ "-black") (snd (SMembers (Name c +:+ "-white") s))))
              [])) as (_ & _ & _ & Hwl & Hbl & _).
  split; [apply Hwl | apply Hbl]; simpl; by apply seed_NoDup.
Qed.

(** X7: under every sequence of calls the trace of published messages only
    grows, every message added goes to the channel named after the limiter
    and reads "<action>-<id>" for one of the four actions, and without a
    configured publisher nothing is added. *)
Theorem runAll_publishes_sync_events (ops : list Op) w :
  ∃ new, published (runAll ops w) = published w ++ new ∧
         Forall (syncEvent (limiter w)) new ∧
         (Pub (config (limiter w)) = None -> new = []).
Proof.
  destruct (runAll_evolves ops w) as (_ & _ & _ & _ & _ & new & Hp & Hpub & Hev).
  exists new. repeat split; try assumption.
  intros Hnone. destruct new as [|e new]; [reflexivity|].
  exfalso. by apply Hpub.
Qed.

Lemma mutation_published (a : Action) id (pub : bool) w :
  published (snd (mutation a id pub w)) = published w ∨
  published (snd (mutation a id pub w))
  = published w ++ sent (limiter w) pub (actionName a +:+ "-" +:+ id).
Proof.
  destruct a; simpl.
  - destruct (SRem (whiteListKey (limiter w)) id (store w)) as [[e|n] s1] eqn:HRem.
    + left. by rewrite (RemoveWhiteList_failure id pub w e s1).
    + right. by rewrite (RemoveWhiteList_success id pub w n s1).
  - destruct (SRem (blackListKey (limiter w)) id (store w)) as [[e|n] s1] eqn:HRem.
    + left. by rewrite (RemoveBlackList_failure id pub w e s1).
    + right. destruct (Del (counterKey (limiter w) id) s1) as [r s2] eqn:HDel.
      by rewrite (RemoveBlackList_success id pub w n s1 r s2).
  - destruct (SAdd (whiteListKey (limiter w)) id (store w)) as [[e|n] s1] eqn:HAdd.
    + left. by rewrite (AddWhiteList_failure id pub w e s1).
    + destruct (decide (id ∈ whiteList (limiter w))).
      * left. by rewrite (AddWhiteList_exists id pub w n s1).
      * right. by rewrite (AddWhiteList_fresh id pub w n s1).
  - destruct (SAdd (blackListKey (limiter w)) id (store w)) as [[e|n] s1] eqn:HAdd.
    + left. by rewrite (AddBlackList_failure id pub w e s1).
    + destruct (decide (id ∈ blackList (limiter w))).
      * left. by rewrite (AddBlackList_exists id pub w n s1).
      * right. by rewrite (AddBlackList_fresh id pub w n s1).
Qed.

(** X8: the message a mutation publishes for an id without a dash goes to
    the limiter's channel, reads "<action>-<id>", and [Sub] on any peer
    decodes it into the same mutation of the same id with publish=false. *)
Theorem publish_Sub_roundtrip (a : Action) id w (event : string * string)
    (peer : World St) :
  hasByte dash id = false ->
  published (snd (mutation a id true w)) = published w ++ [event] ->
  event = (Name (config (limiter w)), actionName a +:+ "-" +:+ id) ∧
  Sub (snd event) peer = mutation a id false peer.
Proof.
  intros Hid Hp.
  assert (event = (Name (config (limiter w)), actionName a +:+ "-" +:+ id)) as ->.
  { destruct (mutation_published a id true w) as [Hsame|Hsent]; rewrite Hp in *.
    - apply (f_equal length) in Hsame. rewrite length_app in Hsame. simpl in Hsame. lia.
    - apply app_inv_head in Hsent. unfold sent in Hsent.
      destruct (Pub (config (limiter w))); [|discriminate]. by injection Hsent. }
  split; [reflexivity|]. simpl. apply Sub_recognized.
  change ("-" +:+ id) with (String dash id).
  rewrite (Split_append _ _ _ (actionName_no_dash a)). by rewrite (Split_without _ _ Hid).
Qed.

(** X9: once the store has accepted the set-add, [AddWhiteList id] leaves
    the id in the whitelist cache (whether it returns no error or the
    already-exists error): [GetWhiteList id] returns [id] and [Check id]
    returns (0, none) without touching the world, also for a blacklisted
    id. *)
Theorem AddWhiteList_then_allowed id (pub : bool) w n s1 :
  SAdd (whiteListKey (limiter w)) id (store w) = (inr n, s1) ->
  let w1 := snd (AddWhiteList id pub w) in
  id ∈ whiteList (limiter w1) ∧
  GetWhiteList (Some id) w1 = (([id], None), w1) ∧
  Check id w1 = ((0, None), w1).
Proof.
  intros HAdd w1.
  assert (id ∈ whiteList (limiter w1)) as Hin.
  { subst w1. destruct (decide (id ∈ whiteList (limiter w))) as [Hin|Hout].
    - by rewrite (AddWhiteList_exists id pub w n s1).
    - rewrite (AddWhiteList_fresh id pub w n s1) by assumption. simpl.
      apply elem_of_app. right. by apply list_elem_of_singleton. }
  split; [assumption|]. split; [|by apply Check_whitelisted].
  unfold GetWhiteList, bind, self, ret.
  by rewrite (proj2 (ContainsString_elem _ _) Hin).
Qed.

(** X10: once the store has accepted the set-add, [AddBlackList id] leaves
    the id in the blacklist cache: [GetBlackList id] returns [id], a second
    [AddBlackList id] whose set-add succeeds returns the already-exists
    error and changes neither the limiter nor the published trace, and for
    an id that is not whitelisted [Check id] returns 0 with the block error
    without touching the world. *)
Theorem AddBlackList_then_blocked id (pub pub' : bool) w n s1 :
  SAdd (blackListKey (limiter w)) id (store w) = (inr n, s1) ->
  let w1 := snd (AddBlackList id pub w) in
  id ∈ blackList (limiter w1) ∧
  GetBlackList (Some id) w1 = (([id], None), w1) ∧
  (∀ n' s2, SAdd (blackListKey (limiter w)) id s1 = (inr n', s2) ->
     AddBlackList id pub' w1 =
     (Some (ErrBase (Some ErrorBlackListExists)),
      mkWorld (limiter w1) s2 (published w1))) ∧
  (id ∉ whiteList (limiter w) -> Check id w1 = ((0, Blocked (limiter w)), w1)).
Proof.
  intros HAdd w1.
  assert (id ∈ blackList (limiter w1) ∧ whiteList (limiter w1) = whiteList (limiter w) ∧
          config (limiter w1) = config (limiter w) ∧ store w1 = s1 ∧
          blackListKey (limiter w1) = blackListKey (limiter w))
    as (Hin & Hwl & Hcfg & Hst & Hkey).
  { subst w1. destruct (decide (id ∈ blackList (limiter w))) as [Hin|Hout].
    - by rewrite (AddBlackList_exists id pub w n s1).
    - rewrite (AddBlackList_fresh id pub w n s1) by assumption. simpl.
      repeat split. apply elem_of_app. right. by apply list_elem_of_singleton. }
  split; [assumption|]. split; [|split].
  - unfold GetBlackList, bind, self, ret.
    by rewrite (proj2 (ContainsString_elem _ _) Hin).
  - intros n' s2 HAdd2. apply (AddBlackList_exists id pub' w1 n' s2); [|assumption].
    by rewrite Hkey, Hst.
  - intros Hw. rewrite Check_blacklisted; [|by rewrite Hwl|assumption].
    unfold Blocked. by rewrite Hcfg.
Qed.

(** X11: when the store accepts the set-removal, [RemoveWhiteList id] takes
    one occurrence of the id out of the whitelist cache and leaves the
    occurrences of every other id as they were; if the cache did not hold
    the id twice, the id is gone: [GetWhiteList id] returns the empty list
    and [Check id] no longer takes the whitelist path (a blacklisted id is
    blocked again). *)
Theorem RemoveWhiteList_effect id (pub : bool) w n s1 :
  SRem (whiteListKey (limiter w)) id (store w) = (inr n, s1) ->
  let w1 := snd (RemoveWhiteList id pub w) in
  (∀ u, count_occ string_dec (whiteList (limiter w1)) u =
        if decide (u = id) then Nat.pred (count_occ string_dec (whiteList (limiter w)) u)
        else count_occ string_dec (whiteList (limiter w)) u) ∧
  blackList (limiter w1) = blackList (limiter w) ∧
  ((count_occ string_dec (whiteList (limiter w)) id <= 1)%nat ->
   (id ∉ whiteList (limiter w1)) ∧
   GetWhiteList (Some id) w1 = (([], None), w1) ∧
   (id ∈ blackList (limiter w) -> Check id w1 = ((0, Blocked (limiter w)), w1))).
Proof.
  intros HRem w1. subst w1.
  rewrite (RemoveWhiteList_success id pub w n s1) by assumption. simpl.
  split; [intros u; apply count_occ_removeFirst|]. split; [reflexivity|].
  intros Hcount. pose proof (removeFirst_absent id _ Hcount) as Hgone.
  split; [assumption|]. split.
  - unfold GetWhiteList, bind, self, ret. simpl.
    by rewrite (proj2 (ContainsString_not_elem _ _) Hgone).
  - intros Hb. by rewrite Check_blacklisted.
Qed.

(** X12: adding an id that is in neither cache and removing it again, with
    the store accepting both calls, gives the limiter back as it was, for
    the whitelist and for the blacklist: the caches hold the same ids in
    the same order. *)
Theorem add_then_remove_restores id (pub1 pub2 : bool) w :
  (∀ n1 s1 n2 s2,
     id ∉ whiteList (limiter w) ->
     SAdd (whiteListKey (limiter w)) id (store w) = (inr n1, s1) ->
     SRem (whiteListKey (limiter w)) id s1 = (inr n2, s2) ->
     limiter (snd (RemoveWhiteList id pub2 (snd (AddWhiteList id pub1 w)))) = limiter w) ∧
  (∀ n1 s1 n2 s2,
     id ∉ blackList (limiter w) ->
     SAdd (blackListKey (limiter w)) id (store w) = (inr n1, s1) ->
     SRem (blackListKey (limiter w)) id s1 = (inr n2, s2) ->
     limiter (snd (RemoveBlackList id pub2 (snd (AddBlackList id pub1 w)))) = limiter w).
Proof.
  split; intros n1 s1 n2 s2 Hout HAdd HRem.
  - rewrite (AddWhiteList_fresh id pub1 w n1 s1) by assumption. simpl.
    rewrite (RemoveWhiteList_success id pub2 _ n2 s2) by (simpl; assumption). simpl.
    unfold withWhiteList. simpl. rewrite removeFirst_snoc by assumption.
    by destruct (limiter w).
  - rewrite (AddBlackList_fresh id pub1 w n1 s1) by assumption. simpl.
    destruct (Del (counterKey (limiter w) id) s2) as [r s3] eqn:HDel.
    rewrite (RemoveBlackList_success id pub2 _ n2 s2 r s3) by (simpl; assumption). simpl.
    unfold withBlackList. simpl. rewrite removeFirst_snoc by assumption.
    by destruct (limiter w).
Qed.

Lemma AddBlackList_limiter id (pub : bool) w :
  limiter (snd (AddBlackList id pub w)) = limiter w ∨
  ((id ∉ blackList (limiter w)) ∧
   limiter (snd (AddBlackList id pub w))
   = withBlackList (limiter w) (blackList (limiter w) ++ [id])).
Proof.
  destruct (SAdd (blackListKey (limiter w)) id (store w)) as [[e|n] s1] eqn:HAdd.
  - left. by rewrite (AddBlackList_failure id pub w e s1).
  - destruct (decide (id ∈ blackList (limiter w))).
    + left. by rewrite (AddBlackList_exists id pub w n s1).
    + right. split; [assumption|]. by rewrite (AddBlackList_fresh id pub w n s1).
Qed.

(** X13: [Check id] never changes the whitelist cache, and the only change
    it ever makes to the blacklist cache is to append the checked id, which
    it does only with block duration 0, for an id that was in neither
    cache; with a block duration other than 0 it changes neither the
    limiter nor the published trace. *)
Theorem Check_limiter_effect id w :
  whiteList (limiter (snd (Check id w))) = whiteList (limiter w) ∧
  (limiter (snd (Check id w)) = limiter w ∨
   (BlockDuration (config (limiter w)) = 0 ∧
    (id ∉ whiteList (limiter w)) ∧ (id ∉ blackList (limiter w)) ∧
    limiter (snd (Check id w))
    = withBlackList (limiter w) (blackList (limiter w) ++ [id]))) ∧
  (BlockDuration (config (limiter w)) ≠ 0 ->
   limiter (snd (Check id w)) = limiter w ∧ published (snd (Check id w)) = published w).
Proof.
  destruct (Check_world id w) as [[_ ->]|(Hw & Hb & [->|[[Hdur ->]|[Hdur ->]]])]; simpl.
  - split; [reflexivity|]. split; [by left | done].
  - split; [reflexivity|]. split; [by left | done].
  - split; [reflexivity|]. split; [by left | done].
  - destruct (AddBlackList_limiter id true
                (mkWorld (limiter w)
                   (snd (FrequencyLimit (counterKey (limiter w) id) 0
                           (Duration (config (limiter w))) (store w)))
                   (published w))) as [Hl|[_ Hl]]; simpl in Hl; rewrite Hl.
    + split; [reflexivity|]. split; [by left | done].
    + split; [reflexivity|]. split; [by right | done].
Qed.

(** X14: when the store call a mutation starts with fails, the mutation
    returns that error as it is and does nothing else: the limiter and the
    published trace are unchanged and no further store call is made. *)
Theorem mutation_store_failure (a : Action) id (pub : bool) w e s1 :
  persist a (limiter w) id (store w) = (inl e, s1) ->
  mutation a id pub w = (Some e, mkWorld (limiter w) s1 (published w)).
Proof.
  destruct a; simpl; intros Hfail.
  - by apply RemoveWhiteList_failure.
  - by apply RemoveBlackList_failure.
  - by apply AddWhiteList_failure.
  - by apply AddBlackList_failure.
Qed.

(** X15: [GetWhiteList] and [GetBlackList] never return an error and never
    change the world; asked for an id they return the one-element list of
    that id when the cache holds it (however many times) and the empty list
    when it does not; asked for nothing they return the cache. *)
Theorem Get_contract (oid : option string) w :
  snd (GetWhiteList oid w) = w ∧ snd (fst (GetWhiteList oid w)) = None ∧
  snd (GetBlackList oid w) = w ∧ snd (fst (GetBlackList oid w)) = None ∧
  (oid = None ->
   fst (fst (GetWhiteList oid w)) = whiteList (limiter w) ∧
   fst (fst (GetBlackList oid w)) = blackList (limiter w)) ∧
  (∀ id, oid = Some id ->
     fst (fst (GetWhiteList oid w))
       = (if decide (id ∈ whiteList (limiter w)) then [id] else []) ∧
     fst (fst (GetBlackList oid w))
       = (if decide (id ∈ blackList (limiter w)) then [id] else [])).
Proof.
  split; [apply GetWhiteList_world|]. split.
  { unfold GetWhiteList, bind, self, ret. destruct oid as [v|]; [|reflexivity].
    by destruct (ContainsString (whiteList (limiter w)) v). }
  split; [apply GetBlackList_world|]. split.
  { unfold GetBlackList, bind, self, ret. destruct oid as [v|]; [|reflexivity].
    by destruct (ContainsString (blackList (limiter w)) v). }
  split; [by intros ->|]. intros id ->.
  unfold GetWhiteList, GetBlackList, bind, self, ret. split.
  - case_decide as Hin.
    + by rewrite (proj2 (ContainsString_elem _ _) Hin).
    + by rewrite (proj2 (ContainsString_not_elem _ _) Hin).
  - case_decide as Hin.
    + by rewrite (proj2 (ContainsString_elem _ _) Hin).
    + by rewrite (proj2 (ContainsString_not_elem _ _) Hin).
Qed.

End Properties.

(** ** More on the reference store *)

Lemma append_prefix_inj (p a b : string) : p +:+ a = p +:+ b -> a = b.
Proof.
  induction p as [|c p IH]; simpl; [done|]. intros Heq. apply IH. by injection Heq.
Qed.

Lemma counterKey_inj (rl : RateLimiter) (a b : string) :
  counterKey rl a = counterKey rl b -> a = b.
Proof.
  unfold counterKey. intros Heq. apply append_prefix_inj in Heq.
  simpl in Heq. by injection Heq.
Qed.

Lemma counterKey_not_set_key (rl : RateLimiter) (id : string) :
  wellKeyed rl ->
  counterKey rl id ≠ whiteListKey rl ∧ counterKey rl id ≠ blackListKey rl.
Proof.
  intros [-> ->]. unfold counterKey.
  split; intros Heq; apply append_prefix_inj in Heq; discriminate.
Qed.

Lemma removeFirst_absent_id (v : string) (l : list string) :
  v ∉ l -> removeFirst v l = l.
Proof.
  induction l as [|x l IH]; simpl; [done|]. intros Hv.
  destruct (String.eqb_spec x v) as [->|_]; [exfalso; apply Hv; left|].
  rewrite IH; [reflexivity|]. intros Hin. apply Hv. by right.
Qed.

Lemma attempt_asked {A} (c : StoreCall)
    (run : gmap string (Z * Z) -> gmap string (list string) ->
           A * (gmap string (Z * Z) * gmap string (list string)))
    (s : MemStore) :
  asked (snd (attempt c run s)) = asked s ++ [c].
Proof.
  unfold attempt, asked.
  destruct (faults s) as [|[e|] rest]; simpl;
    try destruct (run (counters s) (sets s)) as [a [cs ss]]; simpl;
    by rewrite map_app.
Qed.

Lemma attempt_ok {A} (c : StoreCall)
    (run : gmap string (Z * Z) -> gmap string (list string) ->
           A * (gmap string (Z * Z) * gmap string (list string)))
    (s : MemStore) :
  faults s = [] ->
  attempt c run s =
  (inr (fst (run (counters s) (sets s))),
   mkMemStore (fst (snd (run (counters s) (sets s))))
     (snd (snd (run (counters s) (sets s)))) [] (calls s ++ [(c, None)])).
Proof.
  intros Hf. unfold attempt. rewrite Hf.
  by destruct (run (counters s) (sets s)) as [a [cs ss]].
Qed.

Lemma attempt_frame {A} (c : StoreCall)
    (run : gmap string (Z * Z) -> gmap string (list string) ->
           A * (gmap string (Z * Z) * gmap string (list string)))
    (s : MemStore) (P : gmap string (Z * Z) -> gmap string (list string) -> Prop) :
  P (counters s) (sets s) ->
  P (fst (snd (run (counters s) (sets s)))) (snd (snd (run (counters s) (sets s)))) ->
  P (counters (snd (attempt c run s))) (sets (snd (attempt c run s))).
Proof.
  intros Hold Hnew. unfold attempt.
  destruct (faults s) as [|[e|] rest]; simpl; try assumption;
    by destruct (run (counters s) (sets s)) as [a [cs ss]].
Qed.

Section Reference.

Implicit Types (w : World MemStore) (id : string) (s : MemStore).

Lemma AddBlackList_store id (pub : bool) w :
  store (snd (AddBlackList id pub w))
  = snd (SAdd (blackListKey (limiter w)) id (store w)).
Proof.
  destruct (SAdd (blackListKey (limiter w)) id (store w)) as [[e|n] s1] eqn:HAdd.
  - by rewrite (AddBlackList_failure id pub w e s1).
  - destruct (decide (id ∈ blackList (limiter w))).
    + by rewrite (AddBlackList_exists id pub w n s1).
    + by rewrite (AddBlackList_fresh id pub w n s1).
Qed.

(** X16: on the override paths [Check] asks the store for nothing; on the
    counter path it asks for the increment of the id's counter key with
    limit 0 and the configured window, and for one thing more exactly when
    the increment returns a count at or above a positive block threshold:
    the expiry re-set of that key to the block duration, or, with block
    duration 0, the add of the id to the blacklist set.  This holds
    whatever operations of the store fail. *)
Theorem Check_store_calls w id :
  let key := counterKey (limiter w) id in
  let increment := FrequencyLimit key 0 (Duration (config (limiter w))) (store w) in
  (id ∈ whiteList (limiter w) ∨ id ∈ blackList (limiter w) ->
   asked (store (snd (Check id w))) = asked (store w)) ∧
  (id ∉ whiteList (limiter w) -> id ∉ blackList (limiter w) ->
   asked (store (snd (Check id w))) =
   asked (store w) ++
   CallFrequencyLimit key 0 (Duration (config (limiter w))) ::
   match fst increment with
   | inl _ => []
   | inr times =>
       if decide (0 < BlockTimes (config (limiter w)) <= times)
       then if decide (BlockDuration (config (limiter w)) = 0)
            then [CallSAdd (blackListKey (limiter w)) id]
            else [CallExpire key (BlockDuration (config (limiter w)))]
       else []
   end).
Proof.
  intros key increment. subst key increment. split.
  - intros [Hw|Hb].
    + by rewrite Check_whitelisted.
    + destruct (decide (id ∈ whiteList (limiter w))).
      * by rewrite Check_whitelisted.
      * by rewrite Check_blacklisted.
  - intros Hw Hb.
    pose proof (attempt_asked (CallFrequencyLimit (counterKey (limiter w) id) 0
                  (Duration (config (limiter w))))
                  (fun cs ss =>
                     match cs !! counterKey (limiter w) id with
                     | Some (n, ttl) =>
                         (n + 1, (<[counterKey (limiter w) id := (n + 1, ttl)]> cs, ss))
                     | None =>
                         (1, (<[counterKey (limiter w) id :=
                                 (1, Duration (config (limiter w)))]> cs, ss))
                     end) (store w)) as Hasked.
    fold (memFrequencyLimit (counterKey (limiter w) id) 0 (Duration (config (limiter w))))
      in Hasked.
    change (memFrequencyLimit (counterKey (limiter w) id) 0 (Duration (config (limiter w)))
              (store w))
      with (FrequencyLimit (counterKey (limiter w) id) 0 (Duration (config (limiter w)))
              (store w)) in Hasked.
    destruct (FrequencyLimit (counterKey (limiter w) id) 0 (Duration (config (limiter w)))
                (store w)) as [[e|times] s1] eqn:HFL; simpl in *.
    { by rewrite (Check_increment_failure id w e s1). }
    destruct (decide (0 < BlockTimes (config (limiter w)) <= times)) as [Hblock|Hblock].
    + destruct (decide (BlockDuration (config (limiter w)) = 0)) as [Hdur|Hdur].
      * rewrite (Check_blocked_forever id w times s1) by assumption. simpl.
        rewrite AddBlackList_store. simpl. unfold memSAdd.
        rewrite attempt_asked, Hasked. by rewrite <- app_assoc.
      * destruct (Expire (counterKey (limiter w) id) (BlockDuration (config (limiter w))) s1)
          as [r s2] eqn:HExp.
        rewrite (Check_blocked_timed id w times s1 r s2) by assumption. simpl.
        apply (f_equal snd) in HExp. simpl in HExp. subst s2. unfold memExpire.
        rewrite attempt_asked, Hasked. by rewrite <- app_assoc.
    + destruct (decide (0 < WarningTimes (config (limiter w)) <= times)).
      * by rewrite (Check_warned id w times s1).
      * by rewrite (Check_passed id w times s1).
Qed.

Lemma FrequencyLimit_frame (key other : string) (limit duration : Z) s :
  other ≠ key ->
  counters (snd (FrequencyLimit key limit duration s)) !! other = counters s !! other ∧
  sets (snd (FrequencyLimit key limit duration s)) = sets s.
Proof.
  intros Hne. simpl. unfold memFrequencyLimit.
  apply (attempt_frame _ _ s (fun cs ss => cs !! other = counters s !! other ∧ ss = sets s));
    [done|].
  destruct (counters s !! key) as [[n ttl]|]; simpl; by rewrite lookup_insert_ne.
Qed.

Lemma Expire_frame (key other : string) (duration : Z) s :
  other ≠ key ->
  counters (snd (Expire key duration s)) !! other = counters s !! other ∧
  sets (snd (Expire key duration s)) = sets s.
Proof.
  intros Hne. simpl. unfold memExpire.
  apply (attempt_frame _ _ s (fun cs ss => cs !! other = counters s !! other ∧ ss = sets s));
    [done|].
  destruct (counters s !! key) as [[n ttl]|]; simpl; [by rewrite lookup_insert_ne | done].
Qed.

Lemma SAdd_frame (key member : string) s :
  counters (snd (SAdd key member s)) = counters s.
Proof.
  simpl. unfold memSAdd.
  apply (attempt_frame _ _ s (fun cs ss => cs = counters s)); [done|].
  by destruct (ContainsString (default [] (sets s !! key)) member).
Qed.

(** X17: a [Check] of one identity leaves the counter of every other
    identity as it was, whatever operations of the store fail; with a block
    duration other than 0 it leaves the sets of the store as they were as
    well. *)
Theorem Check_isolation w id (other : string) :
  other ≠ id ->
  counters (store (snd (Check id w))) !! counterKey (limiter w) other
    = counters (store w) !! counterKey (limiter w) other ∧
  (BlockDuration (config (limiter w)) ≠ 0 ->
   sets (store (snd (Check id w))) = sets (store w)).
Proof.
  intros Hne.
  assert (counterKey (limiter w) other ≠ counterKey (limiter w) id) as Hkey
    by (intros Heq; by apply counterKey_inj in Heq).
  destruct (FrequencyLimit_frame (counterKey (limiter w) id) (counterKey (limiter w) other)
              0 (Duration (config (limiter w))) (store w) Hkey) as [Hc1 Hs1].
  destruct (Check_world id w) as [[_ ->]|(_ & _ & [->|[[Hdur ->]|[Hdur ->]]])].
  - done.
  - done.
  - destruct (Expire_frame (counterKey (limiter w) id) (counterKey (limiter w) other)
                (BlockDuration (config (limiter w)))
                (snd (FrequencyLimit (counterKey (limiter w) id) 0
                        (Duration (config (limiter w))) (store w))) Hkey) as [Hc2 Hs2].
    cbn [store snd]. rewrite Hc2, Hs2. done.
  - rewrite AddBlackList_store. cbn [store limiter snd].
    rewrite SAdd_frame. split; [assumption | contradiction].
Qed.

(** X18: when the store does not fail, a [Check] on the counter path leaves
    the id's counter one above its former count (1 for a key that did not
    exist).  A new key gets the configured window as time-to-live and an
    existing key keeps the one it has, except that a count at or above a
    positive block threshold, with a block duration other than 0, sets the
    time-to-live to the block duration. *)
Theorem Check_window_ttl w id :
  faults (store w) = [] ->
  id ∉ whiteList (limiter w) -> id ∉ blackList (limiter w) ->
  let key := counterKey (limiter w) id in
  let timed (times : Z) :=
    bool_decide (0 < BlockTimes (config (limiter w)) <= times ∧
                 BlockDuration (config (limiter w)) ≠ 0) in
  counters (store (snd (Check id w))) !! key =
  match counters (store w) !! key with
  | None =>
      Some (1, if timed 1 then BlockDuration (config (limiter w))
               else Duration (config (limiter w)))
  | Some (n, ttl) =>
      Some (n + 1, if timed (n + 1) then BlockDuration (config (limiter w)) else ttl)
  end.
Proof.
  intros Hf Hw Hb key timed. subst key timed.
  set (key := counterKey (limiter w) id).
  assert (∃ times ttl,
            match counters (store w) !! key with
            | None => (1, Duration (config (limiter w)))
            | Some (n, ttl) => (n + 1, ttl)
            end = (times, ttl) ∧
            FrequencyLimit key 0 (Duration (config (limiter w))) (store w)
            = (inr times,
               mkMemStore (<[key := (times, ttl)]> (counters (store w))) (sets (store w)) []
                 (calls (store w) ++
                    [(CallFrequencyLimit key 0 (Duration (config (limiter w))), None)])))
    as (times & ttl & Hcase & HFL).
  { simpl. unfold memFrequencyLimit. rewrite attempt_ok by assumption.
    destruct (counters (store w) !! key) as [[n ttl]|]; simpl; by do 2 eexists. }
  assert (counters (store (snd (Check id w))) !! key =
          Some (times,
                if bool_decide (0 < BlockTimes (config (limiter w)) <= times ∧
                                BlockDuration (config (limiter w)) ≠ 0)
                then BlockDuration (config (limiter w)) else ttl)) as Hresult.
  { destruct (decide (0 < BlockTimes (config (limiter w)) <= times)) as [Hblock|Hblock].
    - destruct (decide (BlockDuration (config (limiter w)) = 0)) as [Hdur|Hdur].
      + rewrite (Check_blocked_forever id w times _ Hw Hb HFL Hblock Hdur).
        cbn [snd]. rewrite AddBlackList_store. cbn [store limiter].
        rewrite SAdd_frame. cbn [counters].
        rewrite lookup_insert_eq. rewrite bool_decide_eq_false_2; [reflexivity|].
        intros [_ Hn]. contradiction.
      + destruct (Expire key (BlockDuration (config (limiter w)))
                    (mkMemStore (<[key := (times, ttl)]> (counters (store w)))
                       (sets (store w)) []
                       (calls (store w) ++
                          [(CallFrequencyLimit key 0 (Duration (config (limiter w))), None)])))
          as [r s2] eqn:HExp.
        rewrite (Check_blocked_timed id w times _ r s2 Hw Hb HFL Hblock Hdur HExp).
        simpl in HExp. unfold memExpire in HExp. rewrite attempt_ok in HExp by reflexivity.
        simpl in HExp. rewrite lookup_insert_eq in HExp. simpl in HExp.
        injection HExp as _ <-. simpl. rewrite lookup_insert_eq.
        by rewrite bool_decide_eq_true_2.
    - assert (snd (Check id w)
              = mkWorld (limiter w)
                  (mkMemStore (<[key := (times, ttl)]> (counters (store w)))
                     (sets (store w)) []
                     (calls (store w) ++
                        [(CallFrequencyLimit key 0 (Duration (config (limiter w))), None)]))
                  (published w)) as ->.
      { destruct (decide (0 < WarningTimes (config (limiter w)) <= times)).
        - by rewrite (Check_warned id w times _ Hw Hb HFL).
        - by rewrite (Check_passed id w times _ Hw Hb HFL). }
      simpl. rewrite lookup_insert_eq. rewrite bool_decide_eq_false_2; [reflexivity|].
      intros [Hn _]. contradiction. }
  rewrite Hresult.
  destruct (counters (store w) !! key) as [[n ttl0]|]; by injection Hcase as <- <-.
Qed.

Lemma mutation_applied (a : Action) id (pub : bool) w :
  faults (store w) = [] ->
  faults (store (snd (mutation a id pub w))) = [] ∧
  limiter (snd (mutation a id pub w)) = applied a id (limiter w).
Proof.
  intros Hf. destruct a; simpl.
  - assert (∃ n s1, SRem (whiteListKey (limiter w)) id (store w) = (inr n, s1) ∧
                    faults s1 = []) as (n & s1 & HRem & Hf1)
      by (simpl; unfold memSRem; rewrite attempt_ok by assumption; by do 2 eexists).
    by rewrite (RemoveWhiteList_success id pub w n s1).
  - assert (∃ n s1, SRem (blackListKey (limiter w)) id (store w) = (inr n, s1) ∧
                    faults s1 = []) as (n & s1 & HRem & Hf1)
      by (simpl; unfold memSRem; rewrite attempt_ok by assumption; by do 2 eexists).
    assert (∃ m s2, Del (counterKey (limiter w) id) s1 = (inr m, s2) ∧
                    faults s2 = []) as (m & s2 & HDel & Hf2)
      by (simpl; unfold memDel; rewrite attempt_ok by assumption; by do 2 eexists).
    by rewrite (RemoveBlackList_success id pub w n s1 _ s2 HRem HDel).
  - assert (∃ n s1, SAdd (whiteListKey (limiter w)) id (store w) = (inr n, s1) ∧
                    faults s1 = []) as (n & s1 & HAdd & Hf1)
      by (simpl; unfold memSAdd; rewrite attempt_ok by assumption; by do 2 eexists).
    destruct (ContainsString (whiteList (limiter w)) id) eqn:Hc.
    + apply ContainsString_elem in Hc. by rewrite (AddWhiteList_exists id pub w n s1).
    + apply ContainsString_not_elem in Hc. by rewrite (AddWhiteList_fresh id pub w n s1).
  - assert (∃ n s1, SAdd (blackListKey (limiter w)) id (store w) = (inr n, s1) ∧
                    faults s1 = []) as (n & s1 & HAdd & Hf1)
      by (simpl; unfold memSAdd; rewrite attempt_ok by assumption; by do 2 eexists).
    destruct (ContainsString (blackList (limiter w)) id) eqn:Hc.
    + apply ContainsString_elem in Hc. by rewrite (AddBlackList_exists id pub w n s1).
    + apply ContainsString_not_elem in Hc. by rewrite (AddBlackList_fresh id pub w n s1).
Qed.

Lemma applied_idempotent (a : Action) id (rl : RateLimiter) :
  NoDup (whiteList rl) -> NoDup (blackList rl) ->
  applied a id (applied a id rl) = applied a id rl.
Proof.
  intros Hw Hb.
  assert (∀ l : list string, NoDup l -> removeFirst id (removeFirst id l) = removeFirst id l)
    as Htwice.
  { intros l Hl. apply removeFirst_absent_id, removeFirst_absent.
    apply NoDup_ListNoDup in Hl.
    exact (proj1 (NoDup_count_occ string_dec l) Hl id). }
  destruct a; simpl.
  - unfold withWhiteList. simpl. by rewrite Htwice.
  - unfold withBlackList. simpl. by rewrite Htwice.
  - destruct (ContainsString (whiteList rl) id) eqn:Hc; [by rewrite Hc|]. simpl.
    assert (ContainsString (whiteList rl ++ [id]) id = true) as ->; [|reflexivity].
    apply ContainsString_elem, elem_of_app. right. by apply list_elem_of_singleton.
  - destruct (ContainsString (blackList rl) id) eqn:Hc; [by rewrite Hc|]. simpl.
    assert (ContainsString (blackList rl ++ [id]) id = true) as ->; [|reflexivity].
    apply ContainsString_elem, elem_of_app. right. by apply list_elem_of_singleton.
Qed.

Lemma Sub_cases (message : string) :
  (∃ (a : Action) id, ∀ w, Sub message w = mutation a id false w) ∨
  (∀ w, Sub message w = (None, w)).
Proof.
  destruct (decide (length (Split message dash) = 2%nat)) as [Hlen|Hlen];
    [|right; intros w; by apply Sub_malformed].
  destruct (Split message dash) as [|action [|id [|z l]]] eqn:HS; try discriminate.
  destruct (String.eqb_spec action "removeWhiteList") as [->|H1];
    [left; exists RemoveWhite, id; intros w; by apply Sub_recognized|].
  destruct (String.eqb_spec action "removeBlackList") as [->|H2];
    [left; exists RemoveBlack, id; intros w; by apply Sub_recognized|].
  destruct (String.eqb_spec action "addWhiteList") as [->|H3];
    [left; exists AddWhite, id; intros w; by apply Sub_recognized|].
  destruct (String.eqb_spec action "addBlackList") as [->|H4];
    [left; exists AddBlack, id; intros w; by apply Sub_recognized|].
  right. intros w. apply (Sub_unrecognized message action id); [assumption|].
  intros a. destruct a; simpl; congruence.
Qed.

(** X19: when the store does not fail and the caches hold no duplicates,
    handling the same synchronization message a second time leaves the
    limiter as the first handling left it: redelivery of a message does not
    change the access lists. *)
Theorem Sub_idempotent (message : string) w :
  faults (store w) = [] ->
  NoDup (whiteList (limiter w)) -> NoDup (blackList (limiter w)) ->
  limiter (snd (Sub message (snd (Sub message w)))) = limiter (snd (Sub message w)).
Proof.
  intros Hf Hw Hb. destruct (Sub_cases message) as [(a & id & HSub)|HSub].
  - rewrite !HSub.
    destruct (mutation_applied a id false w Hf) as [Hf1 Hl1].
    destruct (mutation_applied a id false (snd (mutation a id false w)) Hf1) as [_ Hl2].
    rewrite Hl2, Hl1. by apply applied_idempotent.
  - by rewrite !HSub.
Qed.

(** X20: when the store does not fail, [CheckReset id] returns no error
    whether or not the id has a counter, leaves no counter for the id and
    leaves the counter of every other id as it was; it changes neither the
    limiter nor the published trace, and for a limiter whose set keys are
    derived from its name it leaves the whitelist and blacklist sets of the
    store as they were. *)
Theorem CheckReset_effect w id :
  faults (store w) = [] ->
  let w1 := snd (CheckReset id w) in
  fst (CheckReset id w) = None ∧
  limiter w1 = limiter w ∧ published w1 = published w ∧
  counters (store w1) !! counterKey (limiter w) id = None ∧
  (∀ other, other ≠ id ->
     counters (store w1) !! counterKey (limiter w) other
     = counters (store w) !! counterKey (limiter w) other) ∧
  (wellKeyed (limiter w) ->
   sets (store w1) !! whiteListKey (limiter w) = sets (store w) !! whiteListKey (limiter w) ∧
   sets (store w1) !! blackListKey (limiter w) = sets (store w) !! blackListKey (limiter w)).
Proof.
  intros Hf w1. subst w1.
  assert (Del (counterKey (limiter w) id) (store w)
          = (inr (match counters (store w) !! counterKey (limiter w) id,
                        sets (store w) !! counterKey (limiter w) id with
                  | None, None => 0 | _, _ => 1 end),
             mkMemStore (delete (counterKey (limiter w) id) (counters (store w)))
               (delete (counterKey (limiter w) id) (sets (store w))) []
               (calls (store w) ++ [(CallDel (counterKey (limiter w) id), None)])))
    as HDel by (simpl; unfold memDel; by rewrite attempt_ok by assumption).
  rewrite (CheckReset_spec id w _ _ HDel). simpl.
  split; [reflexivity|]. split; [reflexivity|]. split; [reflexivity|].
  split; [apply lookup_delete_eq|]. split.
  - intros other Hne. apply lookup_delete_ne. intros Heq.
    apply counterKey_inj in Heq. congruence.
  - intros Hkeys. destruct (counterKey_not_set_key (limiter w) id Hkeys) as [Hwk Hbk].
    split; by apply lookup_delete_ne.
Qed.

End Reference.

(** ** The further theorems at work on the running example *)

Ltac distinct := repeat (apply NoDup_cons_2; [member|]); apply NoDup_nil_2.

Lemma New_returns_iff_witness :
  (∃ w, NewOn (Some staticConfig) (Some emptyStore) = Returns w) ∧
  NewOn (Some staticConfig) (@None MemStore) = NilStore ∧
  NewOn None (Some emptyStore) = Panics PanicNilConfig ∧
  NewOn (Some (mkConfig "" 1 0 0 0 None None [] [] None)) (@None MemStore)
    = Panics PanicNoName.
Proof.
  destruct (New_returns_iff (Some staticConfig) (Some emptyStore)) as [[_ Hreturns] _].
  destruct (New_returns_iff (Some staticConfig) (@None MemStore)) as (_ & _ & _ & Hnil).
  destruct (New_returns_iff None (Some emptyStore)) as (_ & _ & Hnone & _).
  destruct (New_returns_iff (Some (mkConfig "" 1 0 0 0 None None [] [] None))
              (@None MemStore)) as (_ & _ & _ & Hpanics).
  split; [|split; [|split]].
  - apply Hreturns. exists staticConfig, emptyStore.
    split; [reflexivity|]. split; [reflexivity|].
    split; [discriminate|]. split; [discriminate | simpl; lia].
  - apply (Hnil staticConfig eq_refl); [discriminate | discriminate | simpl; lia | reflexivity].
  - by apply Hnone.
  - by apply (Hpanics _ eq_refl).
Defined.

Lemma New_static_lists_witness :
  ∃ w, New (Some staticConfig) emptyStore = inr w ∧
       Check "a" w = ((0, None), w) ∧
       Check "b" w = ((0, Some (ErrBase (Some ErrorBlock))), w).
Proof.
  assert (New (Some staticConfig) emptyStore
          = inr (mkWorld (mkRateLimiter (withDefaults staticConfig) ["a"] ["b"; "a"]
                            "api-white" "api-black")
                   (mkMemStore ∅ ∅ []
                      [(CallSMembers "api-white", None); (CallSMembers "api-black", None)])
                   [])) as HNew by reflexivity.
  eexists. split; [exact HNew|]. split.
  - apply (New_static_lists staticConfig emptyStore _ "a" HNew). member.
  - apply (New_static_lists staticConfig emptyStore _ "b" HNew); member.
Defined.

Lemma NewWithConfig_prefix_witness :
  ∃ w, NewWithConfig "shop" (Some (mkConfig "" 1 0 0 0 None None [] [] None)) emptyStore
       = Some (inr w) ∧
       Name (config (limiter w)) = "shop-" ∧ whiteListKey (limiter w) = "shop--white".
Proof.
  destruct (NewWithConfig_prefix "shop" (mkConfig "" 1 0 0 0 None None [] [] None) emptyStore)
    as [_ Hreturns].
  destruct Hreturns as (w & HNew & Hname & Hwhite & _); [discriminate | simpl; lia |].
  exists w. split; [exact HNew|]. split; [exact Hname | exact Hwhite].
Defined.

Lemma runAll_keeps_configuration_witness :
  config (limiter (runAll someCalls (exampleWorld 0 [] []))) = exampleConfig 0 ∧
  wellKeyed (limiter (runAll someCalls (exampleWorld 0 [] []))).
Proof.
  destruct (runAll_keeps_configuration someCalls (exampleWorld 0 [] []))
    as (Hconfig & _ & _ & Hkeys).
  split; [exact Hconfig|]. apply Hkeys. by split.
Defined.

Lemma runAll_keeps_caches_duplicate_free_witness :
  NoDup (whiteList (limiter (runAll someCalls (exampleWorld 0 ["a"; "c"] ["b"])))) ∧
  NoDup (blackList (limiter (runAll someCalls (exampleWorld 0 ["a"; "c"] ["b"])))).
Proof.
  apply (runAll_keeps_caches_duplicate_free someCalls (exampleWorld 0 ["a"; "c"] ["b"]));
    simpl; distinct.
Defined.

Lemma New_caches_stay_duplicate_free_witness :
  ∃ w, New (Some staticConfig) (seededStore []) = inr w ∧
       NoDup (whiteList (limiter (runAll someCalls w))) ∧
       NoDup (blackList (limiter (runAll someCalls w))).
Proof.
  assert (∃ w, New (Some staticConfig) (seededStore []) = inr w) as [w HNew]
    by (eexists; reflexivity).
  exists w. split; [exact HNew|].
  apply (New_caches_stay_duplicate_free staticConfig (seededStore []) w someCalls HNew);
    simpl; distinct.
Defined.

Lemma runAll_publishes_sync_events_witness :
  published (runAll someCalls (mkWorld (mkRateLimiter staticConfig [] [] "api-white"
                                          "api-black") emptyStore [])) = [].
Proof.
  destruct (runAll_publishes_sync_events someCalls
              (mkWorld (mkRateLimiter staticConfig [] [] "api-white" "api-black")
                 emptyStore [])) as (new & Hp & _ & Hnone).
  rewrite Hp, Hnone; reflexivity.
Defined.

Lemma publish_Sub_roundtrip_witness :
  Sub "addBlackList-x" (exampleWorld 0 [] []) = AddBlackList "x" false (exampleWorld 0 [] []) ∧
  fst (GetBlackList (Some "x") (snd (Sub "addBlackList-x" (exampleWorld 0 [] []))))
    = (["x"], None).
Proof.
  assert (published (snd (mutation AddBlack "x" true (exampleWorld 30 [] [])))
          = published (exampleWorld 30 [] []) ++ [("api", "addBlackList-x")]) as Hp
    by reflexivity.
  destruct (publish_Sub_roundtrip AddBlack "x" (exampleWorld 30 [] [])
              ("api", "addBlackList-x") (exampleWorld 0 [] []) eq_refl Hp) as [_ HSub].
  simpl in HSub. split; [exact HSub|]. rewrite HSub. reflexivity.
Defined.

Lemma AddWhiteList_then_allowed_witness :
  Check "u" (snd (AddWhiteList "u" true (blockedWorld [])))
    = ((0, None), snd (AddWhiteList "u" true (blockedWorld []))).
Proof.
  assert (SAdd (whiteListKey (limiter (blockedWorld []))) "u" (store (blockedWorld []))
          = (inr 1, snd (memSAdd "api-white" "u" (store (blockedWorld []))))) as HAdd
    by reflexivity.
  apply (AddWhiteList_then_allowed "u" true (blockedWorld []) 1 _ HAdd).
Defined.

Lemma AddBlackList_then_blocked_witness :
  Check "u" (snd (AddBlackList "u" true (exampleWorld 30 [] [])))
    = ((0, Some (ErrBase (Some ErrorBlock))), snd (AddBlackList "u" true (exampleWorld 30 [] []))).
Proof.
  assert (SAdd (blackListKey (limiter (exampleWorld 30 [] []))) "u"
            (store (exampleWorld 30 [] []))
          = (inr 1, snd (memSAdd "api-black" "u" emptyStore))) as HAdd by reflexivity.
  apply (AddBlackList_then_blocked "u" true true (exampleWorld 30 [] []) 1 _ HAdd). member.
Defined.

Lemma RemoveWhiteList_effect_witness :
  Check "a" (snd (RemoveWhiteList "a" true (exampleWorld 0 ["a"] ["a"])))
    = ((0, Some (ErrBase (Some ErrorBlock))),
       snd (RemoveWhiteList "a" true (exampleWorld 0 ["a"] ["a"]))).
Proof.
  assert (SRem (whiteListKey (limiter (exampleWorld 0 ["a"] ["a"]))) "a"
            (store (exampleWorld 0 ["a"] ["a"]))
          = (inr 0, snd (memSRem "api-white" "a" emptyStore))) as HRem by reflexivity.
  destruct (RemoveWhiteList_effect "a" true (exampleWorld 0 ["a"] ["a"]) 0 _ HRem)
    as (_ & _ & Hgone).
  destruct Hgone as (_ & _ & HCheck); [simpl; lia|].
  apply HCheck. member.
Defined.

Lemma add_then_remove_restores_witness :
  limiter (snd (RemoveBlackList "u" true (snd (AddBlackList "u" true (exampleWorld 0 [] ["v"])))))
    = exampleLimiter 0 [] ["v"].
Proof.
  pose (s1 := snd (memSAdd "api-black" "u" emptyStore)).
  assert (SAdd (blackListKey (limiter (exampleWorld 0 [] ["v"]))) "u"
            (store (exampleWorld 0 [] ["v"])) = (inr 1, s1)) as HAdd by reflexivity.
  assert (SRem (blackListKey (limiter (exampleWorld 0 [] ["v"]))) "u" s1
          = (inr 1, snd (memSRem "api-black" "u" s1))) as HRem by reflexivity.
  assert ("u" ∉ blackList (limiter (exampleWorld 0 [] ["v"]))) as Hout by member.
  apply (proj2 (add_then_remove_restores "u" true true (exampleWorld 0 [] ["v"]))
           1 s1 1 _ Hout HAdd HRem).
Defined.

Lemma Check_limiter_effect_witness :
  limiter (snd (Check "u" timedBlockWorld)) = limiter timedBlockWorld ∧
  published (snd (Check "u" timedBlockWorld)) = [].
Proof.
  destruct (Check_limiter_effect "u" timedBlockWorld) as (_ & _ & Htimed).
  apply Htimed. discriminate.
Defined.

Lemma mutation_store_failure_witness :
  AddBlackList "u" true (mkWorld (exampleLimiter 0 [] []) (faultyStore [Some "down"]) [])
    = (Some (ErrForeign "down"),
       mkWorld (exampleLimiter 0 [] [])
         (mkMemStore ∅ ∅ [] [(CallSAdd "api-black" "u", Some "down")]) []).
Proof.
  apply (mutation_store_failure AddBlack "u" true
           (mkWorld (exampleLimiter 0 [] []) (faultyStore [Some "down"]) [])).
  reflexivity.
Defined.

Lemma Get_contract_witness :
  fst (fst (GetWhiteList (Some "a") (exampleWorld 0 ["a"; "a"] []))) = ["a"] ∧
  fst (fst (GetBlackList (Some "a") (exampleWorld 0 ["a"; "a"] []))) = [] ∧
  fst (fst (GetWhiteList None (exampleWorld 0 ["a"; "a"] []))) = ["a"; "a"].
Proof.
  destruct (Get_contract (Some "a") (exampleWorld 0 ["a"; "a"] []))
    as (_ & _ & _ & _ & _ & Hone).
  destruct (Hone "a" eq_refl) as [Hwhite Hblack].
  destruct (Get_contract None (exampleWorld 0 ["a"; "a"] []))
    as (_ & _ & _ & _ & Hall & _).
  destruct (Hall eq_refl) as [Hcache _].
  split; [|split; [|exact Hcache]].
  - rewrite Hwhite. rewrite decide_True; [reflexivity | member].
  - rewrite Hblack. rewrite decide_False; [reflexivity | member].
Defined.

Lemma Check_store_calls_witness :
  asked (store (snd (Check "u" escalationWorld)))
    = [CallFrequencyLimit "api:u" 0 tenSeconds; CallSAdd "api-black" "u"] ∧
  asked (store (snd (Check "a" (exampleWorld 0 ["a"] [])))) = [].
Proof.
  destruct (Check_store_calls escalationWorld "u") as [_ Hcounted].
  destruct (Check_store_calls (exampleWorld 0 ["a"] []) "a") as [Hoverride _].
  split.
  - rewrite Hcounted by member. reflexivity.
  - rewrite Hoverride; [reflexivity|]. left. member.
Defined.

Lemma Check_isolation_witness :
  counters (store (snd (Check "v" (blockedWorld [])))) !! "api:u" = Some (7, tenSeconds).
Proof.
  destruct (Check_isolation (blockedWorld []) "v" "u") as [Hother _]; [discriminate|].
  exact Hother.
Defined.

Lemma Check_window_ttl_witness :
  counters (store (snd (Check "u" (exampleWorld 30 [] [])))) !! "api:u"
    = Some (1, tenSeconds) ∧
  counters (store (snd (Check "u"
     (mkWorld (exampleLimiter 30 [] []) (countedStore 4 []) [])))) !! "api:u"
    = Some (5, 30).
Proof.
  split.
  - apply (Check_window_ttl (exampleWorld 30 [] []) "u"); [reflexivity | member | member].
  - apply (Check_window_ttl (mkWorld (exampleLimiter 30 [] []) (countedStore 4 []) []) "u");
      [reflexivity | member | member].
Defined.

Lemma Sub_idempotent_witness :
  limiter (snd (Sub "removeBlackList-u" (snd (Sub "removeBlackList-u" (blockedWorld [])))))
    = limiter (snd (Sub "removeBlackList-u" (blockedWorld []))).
Proof.
  apply (Sub_idempotent "removeBlackList-u" (blockedWorld [])); [reflexivity | |];
    simpl; distinct.
Defined.

Lemma CheckReset_effect_witness :
  fst (CheckReset "nobody" (blockedWorld [])) = None ∧
  counters (store (snd (CheckReset "u" (blockedWorld [])))) !! "api:u" = None ∧
  sets (store (snd (CheckReset "u" (blockedWorld [])))) !! "api-black" = Some ["u"].
Proof.
  destruct (CheckReset_effect (blockedWorld []) "nobody" eq_refl) as (Hnone & _).
  destruct (CheckReset_effect (blockedWorld []) "u" eq_refl)
    as (_ & _ & _ & Hgone & _ & Hsets).
  split; [exact Hnone|]. split; [exact Hgone|].
  destruct Hsets as [_ Hblack]; [by split|]. exact Hblack.
Defined.

(** ** Disabled thresholds *)

(** X21: a block threshold of 0 or less disables blocking by count: on the
    counter path [Check] then makes the increment and nothing else, and
    returns the count with the warning error when a positive warning
    threshold is reached and with no error otherwise; with both thresholds
    at 0 or less every counted call returns no error. *)
Theorem Check_disabled_thresholds {St : Type} `{Store St} (w : World St) (id : string)
    (times : Z) (s1 : St) :
  id ∉ whiteList (limiter w) -> id ∉ blackList (limiter w) ->
  FrequencyLimit (counterKey (limiter w) id) 0 (Duration (config (limiter w))) (store w)
    = (inr times, s1) ->
  BlockTimes (config (limiter w)) <= 0 ->
  Check id w =
    ((times, if decide (0 < WarningTimes (config (limiter w)) <= times)
             then Warned (limiter w) else None),
     mkWorld (limiter w) s1 (published w)) ∧
  (WarningTimes (config (limiter w)) <= 0 ->
   Check id w = ((times, None), mkWorld (limiter w) s1 (published w))).
Proof.
  intros Hw Hb HFL Hblock.
  assert (¬ (0 < BlockTimes (config (limiter w)) <= times)) as Hno by lia.
  split.
  - case_decide.
    + by apply Check_warned.
    + by apply Check_passed.
  - intros Hwarn. apply Check_passed; try assumption. lia.
Qed.

Lemma Check_disabled_thresholds_witness :
  fst (checks "u" 3 (mkWorld (mkRateLimiter (mkConfig "api" tenSeconds 0 (-1) 0 None None
                                               [] [] None) [] [] "api-white" "api-black")
                       (countedStore 100 []) []))
    = [(101, None); (102, None); (103, None)].
Proof.
  pose (rl := mkRateLimiter (mkConfig "api" tenSeconds 0 (-1) 0 None None [] [] None)
                [] [] "api-white" "api-black").
  assert (∀ (s : MemStore) (p : list (string * string)) (times : Z) (s1 : MemStore),
            FrequencyLimit "api:u" 0 tenSeconds s = (inr times, s1) ->
            Check "u" (mkWorld rl s p) = ((times, None), mkWorld rl s1 p)) as Hstep.
  { intros s p times s1 HFL.
    apply (Check_disabled_thresholds (mkWorld rl s p) "u" times s1);
      [member | member | exact HFL | simpl; lia | simpl; lia]. }
  fold rl. rewrite !checks_S.
  rewrite (Hstep (countedStore 100 []) [] 101
             (snd (memFrequencyLimit "api:u" 0 tenSeconds (countedStore 100 []))))
    by reflexivity.
  cbn [fst snd].
  rewrite (Hstep _ [] 102
             (snd (memFrequencyLimit "api:u" 0 tenSeconds
                     (snd (memFrequencyLimit "api:u" 0 tenSeconds (countedStore 100 []))))))
    by reflexivity.
  cbn [fst snd].
  rewrite (Hstep _ [] 103
             (snd (memFrequencyLimit "api:u" 0 tenSeconds
                (snd (memFrequencyLimit "api:u" 0 tenSeconds
                     (snd (memFrequencyLimit "api:u" 0 tenSeconds (countedStore 100 []))))))))
    by reflexivity.
  reflexivity.
Defined.

(** ** Removal in place *)

Lemma removeInPlace_view (s : slice) (idx : nat) :
  (idx < len s)%nat -> (len s <= length (cells s))%nat ->
  view (removeInPlace s idx) = removeAt (view s) (Z.of_nat idx).
Proof.
  intros Hidx Hlen. unfold view, removeInPlace, removeAt. simpl.
  replace (Z.to_nat (Z.of_nat idx + 1)) with (idx + 1)%nat by lia.
  rewrite Nat2Z.id.
  rewrite take_take. replace (idx `min` len s)%nat with idx by lia.
  rewrite app_assoc, take_app_length'.
  - f_equal. rewrite take_drop_commute. f_equal. f_equal. lia.
  - rewrite length_app, !length_take, length_drop. lia.
Qed.

Lemma removeInPlace_stale (s : slice) (idx : nat) :
  (idx < len s)%nat -> (len s <= length (cells s))%nat ->
  take (len s) (cells (removeInPlace s idx))
  = removeAt (view s) (Z.of_nat idx) ++ drop (len s - 1) (view s).
Proof.
  intros Hidx Hlen. rewrite <- (removeInPlace_view s idx Hidx Hlen).
  unfold view, removeInPlace. simpl.
  rewrite (app_assoc (take idx (cells s))).
  set (front := take idx (cells s) ++ take (len s - idx - 1) (drop (idx + 1) (cells s))).
  assert (length front = (len s - 1)%nat) as Hfront
    by (subst front; rewrite length_app, !length_take, length_drop; lia).
  rewrite (take_app_length' front _ (len s - 1)) by done.
  rewrite take_app, Hfront. rewrite (take_ge front) by lia. f_equal.
  replace (len s - (len s - 1))%nat with 1%nat by lia.
  rewrite take_drop_commute. f_equal. f_equal. lia.
Qed.

Lemma removeFirst_split (id : string) (l : list string) :
  id ∈ l ->
  ∃ l1 l2, l = l1 ++ id :: l2 ∧ (id ∉ l1) ∧ removeFirst id l = l1 ++ l2.
Proof.
  induction l as [|x l IH]; [intros Hin; inversion Hin|].
  intros Hin. simpl. destruct (String.eqb_spec x id) as [->|Hne].
  - exists [], l. repeat split. apply not_elem_of_nil.
  - apply elem_of_cons in Hin as [->|Hin]; [congruence|].
    destruct (IH Hin) as (l1 & l2 & -> & Hl1 & ->).
    exists (x :: l1), l2. repeat split.
    intros Hx. apply elem_of_cons in Hx as [->|Hx]; [congruence | contradiction].
Qed.

(** X22: the removal of a cached id by [RemoveWhiteList] and
    [RemoveBlackList] happens in the backing array of the cache: the array
    keeps its size, the cache afterwards is the former cache without the
    first occurrence of the id, as the limiter's embedding has it, and a
    slice handed out before by [GetWhiteList(nil)] or [GetBlackList(nil)]
    (same array, former length) afterwards reads the new cache followed by
    the former last element.  For a cache without duplicates that is the
    former cache exactly when the removed id was its last element; in every
    other case the slice handed out has changed under its holder. *)
Theorem removeInPlace_aliasing (s : slice) (id : string) :
  id ∈ view s -> (len s <= length (cells s))%nat ->
  let idx := Z.to_nat (IndexOfString (view s) id) in
  view (removeInPlace s idx) = removeFirst id (view s) ∧
  length (cells (removeInPlace s idx)) = length (cells s) ∧
  take (len s) (cells (removeInPlace s idx))
    = removeFirst id (view s) ++ drop (len s - 1) (view s) ∧
  (NoDup (view s) ->
   take (len s) (cells (removeInPlace s idx)) = view s ↔ last (view s) = Some id).
Proof.
  intros Hin Hlen idx.
  pose proof (IndexOfString_range (view s) id) as Hrange.
  assert (IndexOfString (view s) id ≠ -1) as Hfound
    by (intros Habs; by apply IndexOfString_absent in Habs).
  assert (length (view s) = len s) as Hview
    by (unfold view; rewrite length_take; lia).
  assert (idx < len s)%nat as Hidx by (subst idx; lia).
  assert (Z.of_nat idx = IndexOfString (view s) id) as Hz by (subst idx; lia).
  pose proof (removeAt_IndexOfString (view s) id) as Hremove.
  destruct (Z.eqb_spec (IndexOfString (view s) id) (-1)) as [|_]; [contradiction|].
  simpl in Hremove. rewrite <- Hz in Hremove.
  assert (take (len s) (cells (removeInPlace s idx))
          = removeFirst id (view s) ++ drop (len s - 1) (view s)) as Hstale
    by (by rewrite removeInPlace_stale, Hremove).
  split; [by rewrite removeInPlace_view|]. split; [|split; [exact Hstale|]].
  - unfold removeInPlace. simpl.
    rewrite !length_app, !length_take, !length_drop. lia.
  - intros Hnd. rewrite Hstale, <- Hview. clear Hstale Hremove.
    destruct (removeFirst_split id (view s) Hin) as (l1 & l2 & Hv & Hl1 & ->).
    rewrite Hv in Hnd |- *.
    apply NoDup_app in Hnd as (_ & _ & Hnd2).
    apply NoDup_cons in Hnd2 as [Hl2 _].
    destruct l2 as [|y l2] using rev_ind.
    + rewrite length_app. simpl. replace (length l1 + 1 - 1)%nat with (length l1) by lia.
      rewrite drop_app_length, app_nil_r. split; [intros _; apply last_snoc | done].
    + clear IHl2.
      assert (y ≠ id) as Hy
        by (intros ->; apply Hl2, elem_of_app; right; by apply list_elem_of_singleton).
      replace (l1 ++ id :: l2 ++ [y]) with ((l1 ++ id :: l2) ++ [y])
        by (by rewrite <- app_assoc).
      rewrite length_app. simpl.
      replace (length (l1 ++ id :: l2) + 1 - 1)%nat with (length (l1 ++ id :: l2)) by lia.
      rewrite drop_app_length, last_snoc. split.
      * intros Heq. rewrite <- !app_assoc in Heq. apply app_inv_head in Heq.
        simpl in Heq. destruct l2 as [|z l2]; simpl in Heq.
        -- injection Heq as ->. congruence.
        -- injection Heq as -> _. exfalso. apply Hl2. left.
      * intros Heq. injection Heq as ->. congruence.
Qed.

Lemma removeInPlace_aliasing_witness :
  view (removeInPlace (mkSlice ["a"; "b"; "c"; ""] 3) 0) = ["b"; "c"] ∧
  take 3 (cells (removeInPlace (mkSlice ["a"; "b"; "c"; ""] 3) 0)) = ["b"; "c"; "c"] ∧
  take 3 (cells (removeInPlace (mkSlice ["a"; "b"; "c"; ""] 3) 0)) ≠ ["a"; "b"; "c"].
Proof.
  assert ("a" ∈ view (mkSlice ["a"; "b"; "c"; ""] 3)) as Hin by member.
  assert (len (mkSlice ["a"; "b"; "c"; ""] 3)
          <= length (cells (mkSlice ["a"; "b"; "c"; ""] 3)))%nat as Hlen by (simpl; lia).
  destruct (removeInPlace_aliasing (mkSlice ["a"; "b"; "c"; ""] 3) "a" Hin Hlen)
    as (Hview & _ & Hstale & Hchanged).
  split; [exact Hview|]. split; [exact Hstale|].
  intros Hsame. apply Hchanged in Hsame; [discriminate Hsame|].
  simpl. distinct.
Defined.
